(** * Personal Core Sheet: form state, validation and storage

    A shallow embedding of [src/App.tsx].  The component keeps one
    [SheetData] record in a React state cell, writes it to [localStorage]
    as JSON after every change, reads it back when it mounts, and lets the
    print button through only when every field is short enough. *)

From Stdlib Require Import NArith Ascii.
From stdpp Require Import base option list strings gmap.

Set Warnings "-register-all".

(** ** JavaScript strings

    A JavaScript string is a sequence of UTF-16 code units and [.length]
    counts code units.  A code unit is a number below 2^16. *)

Definition jsstring : Type := list N.

(** An ASCII literal as a JavaScript string. *)
Definition js (s : string) : jsstring :=
  map N_of_ascii (String.list_ascii_of_string s).

Definition QUOTE : N := 34.
Definition BACKSLASH : N := 92.
Definition SLASH : N := 47.
Definition COMMA : N := 44.
Definition COLON : N := 58.
Definition LBRACKET : N := 91.
Definition RBRACKET : N := 93.
Definition LBRACE : N := 123.
Definition RBRACE : N := 125.
Definition MINUS : N := 45.
Definition PLUS : N := 43.
Definition DOT : N := 46.
Definition ZERO : N := 48.

(** ** JSON values

    What [JSON.parse] can return.  An object keeps its properties in
    creation order; names that are array indices, which JavaScript lists
    first, are kept where the text has them, and nothing below reads that
    order.  A number is carried as the literal it was read from: the
    program never computes with one. *)

Inductive json : Type :=
| JNull
| JBool (b : bool)
| JNumber (lexeme : jsstring)
| JString (s : jsstring)
| JArray (elements : list json)
| JObject (props : list (jsstring * json)).

(** Exceptions the platform calls used by the program can throw. *)
Inductive exn : Type :=
| SyntaxError
| QuotaExceededError.

Inductive completion (A : Type) : Type :=
| Normal (a : A)
| Throw (e : exn).
Arguments Normal {A} a.
Arguments Throw {A} e.

(** ** JSON.parse

    The JSON grammar of ECMA-262: four white-space characters, the three
    literals, numbers, strings with the nine escapes, arrays and objects.
    A repeated property name keeps its first position and its last value. *)

Definition is_ws (c : N) : bool :=
  ((c =? 9) || (c =? 10) || (c =? 13) || (c =? 32))%N.

Fixpoint skip_ws (s : jsstring) : jsstring :=
  match s with
  | c :: r => if is_ws c then skip_ws r else s
  | [] => []
  end.

Definition is_digit (c : N) : bool := ((48 <=? c) && (c <=? 57))%N.

Definition hex_value (c : N) : option N :=
  if ((48 <=? c) && (c <=? 57))%N then Some (c - 48)%N
  else if ((65 <=? c) && (c <=? 70))%N then Some (c - 55)%N
  else if ((97 <=? c) && (c <=? 102))%N then Some (c - 87)%N
  else None.

Definition hex4 (h1 h2 h3 h4 : N) : option N :=
  match hex_value h1, hex_value h2, hex_value h3, hex_value h4 with
  | Some a, Some b, Some c, Some d => Some (a * 4096 + b * 256 + c * 16 + d)%N
  | _, _, _, _ => None
  end.

(** The character a one-letter escape stands for. *)
Definition simple_escape (e : N) : option N :=
  if (e =? QUOTE)%N then Some QUOTE
  else if (e =? BACKSLASH)%N then Some BACKSLASH
  else if (e =? SLASH)%N then Some SLASH
  else if (e =? 98)%N then Some 8%N
  else if (e =? 102)%N then Some 12%N
  else if (e =? 110)%N then Some 10%N
  else if (e =? 114)%N then Some 13%N
  else if (e =? 116)%N then Some 9%N
  else None.

(** The characters of a string literal, read after its opening quote up to
    and including the closing one. *)
Fixpoint parse_chars (s : jsstring) : option (jsstring * jsstring) :=
  match s with
  | [] => None
  | c :: r =>
      if (c =? QUOTE)%N then Some ([], r)
      else if (c =? BACKSLASH)%N then
        match r with
        | [] => None
        | e :: r1 =>
            if (e =? 117)%N then
              match r1 with
              | h1 :: h2 :: h3 :: h4 :: r2 =>
                  match hex4 h1 h2 h3 h4 with
                  | Some u =>
                      match parse_chars r2 with
                      | Some (t, rest) => Some (u :: t, rest)
                      | None => None
                      end
                  | None => None
                  end
              | _ => None
              end
            else
              match simple_escape e with
              | Some u =>
                  match parse_chars r1 with
                  | Some (t, rest) => Some (u :: t, rest)
                  | None => None
                  end
              | None => None
              end
        end
      else if (c <? 32)%N then None
      else
        match parse_chars r with
        | Some (t, rest) => Some (c :: t, rest)
        | None => None
        end
  end.

Fixpoint take_digits (s : jsstring) : jsstring * jsstring :=
  match s with
  | c :: r =>
      if is_digit c then let '(ds, rest) := take_digits r in (c :: ds, rest)
      else ([], s)
  | [] => ([], [])
  end.

(** A number token: optional minus, integer part without a leading zero,
    optional fraction, optional exponent. *)
Definition parse_number (s : jsstring) : option (jsstring * jsstring) :=
  let '(sign, s1) :=
    match s with
    | c :: r => if (c =? MINUS)%N then ([c], r) else ([], s)
    | [] => ([], s)
    end in
  match s1 with
  | [] => None
  | c :: r =>
      let int_part :=
        if (c =? ZERO)%N then Some ([c], r)
        else if is_digit c then
          let '(ds, rest) := take_digits r in Some (c :: ds, rest)
        else None in
      match int_part with
      | None => None
      | Some (int, s2) =>
          let frac_part :=
            match s2 with
            | c2 :: r2 =>
                if (c2 =? DOT)%N then
                  match take_digits r2 with
                  | ([], _) => None
                  | (ds, rest) => Some (c2 :: ds, rest)
                  end
                else Some ([], s2)
            | [] => Some ([], s2)
            end in
          match frac_part with
          | None => None
          | Some (frac, s3) =>
              let exp_part :=
                match s3 with
                | c3 :: r3 =>
                    if ((c3 =? 101) || (c3 =? 69))%N then
                      let '(esign, r4) :=
                        match r3 with
                        | c4 :: r5 =>
                            if ((c4 =? PLUS) || (c4 =? MINUS))%N
                            then ([c4], r5) else ([], r3)
                        | [] => ([], r3)
                        end in
                      match take_digits r4 with
                      | ([], _) => None
                      | (ds, rest) => Some (c3 :: esign ++ ds, rest)
                      end
                    else Some ([], s3)
                | [] => Some ([], s3)
                end in
              match exp_part with
              | None => None
              | Some (exp, rest) => Some (sign ++ int ++ frac ++ exp, rest)
              end
          end
      end
  end.

(** [s] starts with the word [w]: what follows it. *)
Fixpoint strip_prefix (w s : jsstring) : option jsstring :=
  match w, s with
  | [], _ => Some s
  | a :: w', b :: s' => if (a =? b)%N then strip_prefix w' s' else None
  | _ :: _, [] => None
  end.

(** CreateDataProperty on an ordinary object. *)
Fixpoint define_prop (k : jsstring) (v : json) (props : list (jsstring * json))
  : list (jsstring * json) :=
  match props with
  | [] => [(k, v)]
  | (k', v') :: rest =>
      if decide (k' = k) then (k', v) :: rest
      else (k', v') :: define_prop k v rest
  end.

Fixpoint parse_value (fuel : nat) (s : jsstring) {struct fuel}
  : option (json * jsstring) :=
  match fuel with
  | O => None
  | S fuel =>
      match skip_ws s with
      | [] => None
      | c :: r =>
          if (c =? LBRACE)%N then
            match skip_ws r with
            | [] => None
            | c' :: r' =>
                if (c' =? RBRACE)%N then Some (JObject [], r')
                else parse_members fuel (c' :: r') []
            end
          else if (c =? LBRACKET)%N then
            match skip_ws r with
            | [] => None
            | c' :: r' =>
                if (c' =? RBRACKET)%N then Some (JArray [], r')
                else parse_elements fuel (c' :: r') []
            end
          else if (c =? QUOTE)%N then
            match parse_chars r with
            | Some (str, rest) => Some (JString str, rest)
            | None => None
            end
          else
            match strip_prefix (js "null") (c :: r) with
            | Some rest => Some (JNull, rest)
            | None =>
            match strip_prefix (js "true") (c :: r) with
            | Some rest => Some (JBool true, rest)
            | None =>
            match strip_prefix (js "false") (c :: r) with
            | Some rest => Some (JBool false, rest)
            | None =>
            match parse_number (c :: r) with
            | Some (lexeme, rest) => Some (JNumber lexeme, rest)
            | None => None
            end end end end
      end
  end
with parse_elements (fuel : nat) (s : jsstring) (acc : list json) {struct fuel}
  : option (json * jsstring) :=
  match fuel with
  | O => None
  | S fuel =>
      match parse_value fuel s with
      | None => None
      | Some (v, r) =>
          match skip_ws r with
          | [] => None
          | c :: r' =>
              if (c =? COMMA)%N then parse_elements fuel r' (acc ++ [v])
              else if (c =? RBRACKET)%N then Some (JArray (acc ++ [v]), r')
              else None
          end
      end
  end
with parse_members (fuel : nat) (s : jsstring) (acc : list (jsstring * json))
  {struct fuel} : option (json * jsstring) :=
  match fuel with
  | O => None
  | S fuel =>
      match skip_ws s with
      | [] => None
      | c :: r =>
          if (c =? QUOTE)%N then
            match parse_chars r with
            | None => None
            | Some (k, r1) =>
                match skip_ws r1 with
                | [] => None
                | c1 :: r2 =>
                    if (c1 =? COLON)%N then
                      match parse_value fuel r2 with
                      | None => None
                      | Some (v, r3) =>
                          match skip_ws r3 with
                          | [] => None
                          | c3 :: r4 =>
                              if (c3 =? COMMA)%N then
                                parse_members fuel r4 (define_prop k v acc)
                              else if (c3 =? RBRACE)%N then
                                Some (JObject (define_prop k v acc), r4)
                              else None
                          end
                      end
                    else None
                end
            end
          else None
      end
  end.

(** The whole text must be one value between optional white space.  The
    parsers never need more fuel than one above the number of characters
    they take ([parse_fuel] below), so one more than the length of the text
    is enough. *)
Definition JSON_parse (text : jsstring) : completion json :=
  match parse_value (S (length text)) text with
  | Some (v, rest) =>
      match skip_ws rest with
      | [] => Normal v
      | _ :: _ => Throw SyntaxError
      end
  | None => Throw SyntaxError
  end.

(** ** The data model

    [type Episode] and [interface SheetData] of the source.  TypeScript
    erases these types at run time; the record types below describe the
    values the program builds itself. *)

Record Episode : Type := { from : jsstring; text : jsstring }.

Record SheetData : Type := {
  visions : list jsstring;
  engineSlogan : jsstring;
  engines : list jsstring;
  episodes : list Episode
}.

Definition STORAGE_KEY : jsstring := js "pcs-sheet-data".

(** [Array.from({ length: 6 }, () => ({ from: "", text: "" }))] *)
Definition emptyEpisodes : list Episode :=
  (fun _ => {| from := []; text := [] |}) <$> seq 0 6.

(** The fallback of the [useState] initializer. *)
Definition defaultData : SheetData :=
  {| visions := [[]; []; []];
     engineSlogan := [];
     engines := [[]; []; []];
     episodes := emptyEpisodes |}.

(** The JavaScript value of a typed record: property names in the order the
    object literals of the source create them (spreading keeps that order). *)
Definition toJS_Episode (ep : Episode) : json :=
  JObject [(js "from", JString (from ep)); (js "text", JString (text ep))].

Definition toJS (data : SheetData) : json :=
  JObject [(js "visions", JArray (JString <$> visions data));
           (js "engineSlogan", JString (engineSlogan data));
           (js "engines", JArray (JString <$> engines data));
           (js "episodes", JArray (toJS_Episode <$> episodes data))].

(** ** JSON.stringify

    Serialization of the values of type [SheetData], without indentation.
    QuoteJSONString walks the code points of the string: a surrogate pair is
    copied, a lone surrogate and a control character are escaped. *)

Definition hex_digit (d : N) : N :=
  if (d <? 10)%N then (48 + d)%N else (87 + d)%N.

Definition UnicodeEscape (c : N) : jsstring :=
  [BACKSLASH; 117%N; hex_digit (c / 4096); hex_digit ((c / 256) mod 16);
   hex_digit ((c / 16) mod 16); hex_digit (c mod 16)]%N.

Definition is_lead (c : N) : bool := ((55296 <=? c) && (c <=? 56319))%N.
Definition is_trail (c : N) : bool := ((56320 <=? c) && (c <=? 57343))%N.

Definition quote_unit (c : N) : jsstring :=
  if (c =? 8)%N then [BACKSLASH; 98%N]
  else if (c =? 9)%N then [BACKSLASH; 116%N]
  else if (c =? 10)%N then [BACKSLASH; 110%N]
  else if (c =? 12)%N then [BACKSLASH; 102%N]
  else if (c =? 13)%N then [BACKSLASH; 114%N]
  else if (c =? QUOTE)%N then [BACKSLASH; QUOTE]
  else if (c =? BACKSLASH)%N then [BACKSLASH; BACKSLASH]
  else if (c <? 32)%N || is_lead c || is_trail c then UnicodeEscape c
  else [c].

Fixpoint quote_units (s : jsstring) : jsstring :=
  match s with
  | [] => []
  | c :: r =>
      match r with
      | d :: r' =>
          if is_lead c && is_trail d then c :: d :: quote_units r'
          else quote_unit c ++ quote_units r
      | [] => quote_unit c
      end
  end.

Definition QuoteJSONString (s : jsstring) : jsstring :=
  QUOTE :: quote_units s ++ [QUOTE].

Fixpoint join_comma (parts : list jsstring) : jsstring :=
  match parts with
  | [] => []
  | p :: ps =>
      match ps with
      | [] => p
      | _ :: _ => p ++ COMMA :: join_comma ps
      end
  end.

Definition SerializeJSONArray (parts : list jsstring) : jsstring :=
  LBRACKET :: join_comma parts ++ [RBRACKET].

Definition member (kv : jsstring * jsstring) : jsstring :=
  QuoteJSONString kv.1 ++ COLON :: kv.2.

Definition SerializeJSONObject (members : list (jsstring * jsstring))
  : jsstring :=
  LBRACE :: join_comma (member <$> members) ++ [RBRACE].

Definition stringify_Episode (ep : Episode) : jsstring :=
  SerializeJSONObject
    [(js "from", QuoteJSONString (from ep));
     (js "text", QuoteJSONString (text ep))].

Definition JSON_stringify (data : SheetData) : jsstring :=
  SerializeJSONObject
    [(js "visions", SerializeJSONArray (QuoteJSONString <$> visions data));
     (js "engineSlogan", QuoteJSONString (engineSlogan data));
     (js "engines", SerializeJSONArray (QuoteJSONString <$> engines data));
     (js "episodes", SerializeJSONArray (stringify_Episode <$> episodes data))].

(** ** localStorage

    A string-keyed store of strings with a finite capacity, counted in code
    units over all keys and values.  [setItem] throws when the new content
    would not fit and then leaves the store as it was. *)

Record Storage : Type := {
  items : gmap jsstring jsstring;
  quota : nat
}.

Definition usage (m : gmap jsstring jsstring) : nat :=
  map_fold (fun k v n => length k + length v + n) 0 m.

Definition getItem (key : jsstring) (st : Storage) : option jsstring :=
  items st !! key.

Definition setItem (key value : jsstring) (st : Storage) : completion Storage :=
  let items' := <[key := value]> (items st) in
  if decide (usage items' <= quota st)
  then Normal {| items := items'; quota := quota st |}
  else Throw QuotaExceededError.

(** ** Calls the component makes to the outside, in order. *)

Inductive Call : Type :=
| ConsoleError (message : string) (e : exn)
| SetItemCall (key value : jsstring)
| Alert (message : string)
| WindowPrint.

#[global] Instance exn_eq_dec : EqDecision exn.
Proof. solve_decision. Defined.

#[global] Instance Call_eq_dec : EqDecision Call.
Proof. solve_decision. Defined.

#[global] Instance completion_ret : MRet completion := fun _ a => Normal a.
#[global] Instance completion_bind : MBind completion := fun _ _ f c =>
  match c with
  | Normal a => f a
  | Throw e => Throw e
  end.

(** ** loadDataFromStorage *)

(** ToBoolean.  For a number only a zero is falsy; a literal so small that it
    rounds to zero is not recognised here, which [shape_check] cannot
    observe: every number fails its next conjunct. *)
Fixpoint nonzero_literal (lexeme : jsstring) : bool :=
  match lexeme with
  | [] => false
  | c :: r =>
      if ((c =? 101) || (c =? 69))%N then false
      else ((49 <=? c) && (c <=? 57))%N || nonzero_literal r
  end.

Definition truthy (v : json) : bool :=
  match v with
  | JNull => false
  | JBool b => b
  | JNumber lexeme => nonzero_literal lexeme
  | JString s => bool_decide (s ≠ [])
  | JArray _ => true
  | JObject _ => true
  end.

Fixpoint lookup_prop (name : jsstring) (props : list (jsstring * json))
  : option json :=
  match props with
  | [] => None
  | (k, v) :: rest => if decide (k = name) then Some v else lookup_prop name rest
  end.

(** [v.name] for a name that no built-in prototype defines, as are the four
    names the program reads: [None] is [undefined]. *)
Definition get_prop (v : json) (name : jsstring) : option json :=
  match v with
  | JObject props => lookup_prop name props
  | _ => None
  end.

Definition Array_isArray (o : option json) : bool :=
  match o with
  | Some (JArray _) => true
  | _ => false
  end.

Definition typeof_string (o : option json) : bool :=
  match o with
  | Some (JString _) => true
  | _ => false
  end.

(** The condition of the inner [if] of [loadDataFromStorage]. *)
Definition shape_check (parsed : json) : bool :=
  truthy parsed
  && Array_isArray (get_prop parsed (js "visions"))
  && typeof_string (get_prop parsed (js "engineSlogan"))
  && Array_isArray (get_prop parsed (js "engines"))
  && Array_isArray (get_prop parsed (js "episodes")).

(** The [try] block.  [Normal (Some v)] is [return v]; [Normal None] is
    reaching the end of the block. *)
Definition load_try (st : Storage) : completion (option json) :=
  match getItem STORAGE_KEY st with
  | Some stored =>
      if bool_decide (stored ≠ []) then
        parsed ← JSON_parse stored;
        if shape_check parsed then mret (Some parsed) else mret None
      else mret None
  | None => mret None
  end.

(** [None] is [null]. *)
Definition loadDataFromStorage (st : Storage) : list Call * option json :=
  match load_try st with
  | Normal (Some parsed) => ([], Some parsed)
  | Normal None => ([], None)
  | Throw e =>
      ([ConsoleError "Failed to load data from localStorage:" e], None)
  end.

(** The [useState] initializer: [loaded || { ... }]. *)
Definition initialData (st : Storage) : json :=
  match (loadDataFromStorage st).2 with
  | Some loaded => if truthy loaded then loaded else toJS defaultData
  | None => toJS defaultData
  end.

(** ** The save effect: the body of [useEffect(..., [data])]. *)
Definition saveEffect (data : SheetData) (st : Storage) : list Call * Storage :=
  let value := JSON_stringify data in
  match setItem STORAGE_KEY value st with
  | Normal st' => ([SetItemCall STORAGE_KEY value], st')
  | Throw e =>
      ([SetItemCall STORAGE_KEY value;
        ConsoleError "Failed to save data to localStorage:" e], st)
  end.

(** ** The change handlers *)

(** A number is an array index when it is below 2^32 - 1; with any other
    number [xs[index] = value] sets an ordinary property of the array
    object, which neither its elements nor its length show. *)
Definition is_array_index (index : nat) : bool :=
  bool_decide (N.of_nat index < 4294967295)%N.

(** [xs[index] = value] on a JavaScript array, [None] being an empty slot
    and [index] a natural number (the render passes the positions that
    [map] gives it): inside the array the element is replaced; at or past
    its end, with an array index, the array grows up to [index], leaving
    the slots in between empty; with a number that is no array index the
    elements stay as they are. *)
Definition array_assign {A} (xs : list (option A)) (index : nat) (value : A)
  : list (option A) :=
  if decide (index < length xs) then <[index := Some value]> xs
  else if is_array_index index
       then xs ++ replicate (index - length xs) None ++ [Some value]
       else xs.

(** An array without empty slots is a [list A]; one with empty slots is not
    a value of the element type's array. *)
Definition dense {A} (xs : list (option A)) : option (list A) :=
  mapM id xs.

(** Each handler is given as its updater [prev => next].  The result is
    [None] when [next] is no [SheetData] because an array got empty slots. *)
Definition handleVisionChange (index : nat) (value : jsstring)
    (prev : SheetData) : option SheetData :=
  visions' ← dense (array_assign (Some <$> visions prev) index value);
  Some {| visions := visions';
          engineSlogan := engineSlogan prev;
          engines := engines prev;
          episodes := episodes prev |}.

Definition handleEngineChange (index : nat) (value : jsstring)
    (prev : SheetData) : option SheetData :=
  engines' ← dense (array_assign (Some <$> engines prev) index value);
  Some {| visions := visions prev;
          engineSlogan := engineSlogan prev;
          engines := engines';
          episodes := episodes prev |}.

(** The updater written inline at the slogan input. *)
Definition handleSloganChange (value : jsstring) (prev : SheetData)
  : option SheetData :=
  Some {| visions := visions prev;
          engineSlogan := value;
          engines := engines prev;
          episodes := episodes prev |}.

(** [keyof Episode] *)
Inductive EpisodeKey : Type := key_from | key_text.

(** [{ ...ep, [field]: value }] *)
Definition set_field (field : EpisodeKey) (value : jsstring) (ep : Episode)
  : Episode :=
  match field with
  | key_from => {| from := value; text := text ep |}
  | key_text => {| from := from ep; text := value |}
  end.

Definition handleEpisodeChange (index : nat) (field : EpisodeKey)
    (value : jsstring) (prev : SheetData) : option SheetData :=
  let episodes' :=
    imap (fun i ep => if decide (i = index) then set_field field value ep
                      else ep) (episodes prev) in
  Some {| visions := visions prev;
          engineSlogan := engineSlogan prev;
          engines := engines prev;
          episodes := episodes' |}.

(** ** Length checks *)

Definition validateTextLength (text : jsstring) (maxLength : nat) : bool :=
  bool_decide (length text <= maxLength).

Definition getEpisodeFontSize (textLength : nat) : string :=
  if decide (textLength <= 40) then "9.6px"
  else if decide (textLength <= 80) then "7.5px"
  else "7.5px".

(** The five reasons [handlePrint] refuses to print, in the order it tests
    them, and the text of the alert of each. *)
Inductive Violation : Type :=
| VisionTooLong
| SloganTooLong
| EngineTooLong
| EpisodeTextTooLong
| EpisodeFromTooLong.

#[global] Instance Violation_eq_dec : EqDecision Violation.
Proof. solve_decision. Defined.

Definition NL : string := String "010"%char EmptyString.

Definition alertMessage (k : Violation) : string :=
  match k with
  | VisionTooLong =>
      "文字数オーバーです" +:+ NL
      +:+ "【My Vision】は各30字以内で入力してください。"
  | SloganTooLong =>
      "文字数オーバーです" +:+ NL
      +:+ "【My Engine】のスローガンは30字以内で入力してください。"
  | EngineTooLong =>
      "文字数オーバーです" +:+ NL
      +:+ "【My Engine】の原動力は各30字以内で入力してください。"
  | EpisodeTextTooLong =>
      "文字数オーバーです" +:+ NL
      +:+ "【My Episode】のエピソードは各80字以内で入力してください。"
  | EpisodeFromTooLong =>
      "文字数オーバーです" +:+ NL
      +:+ "【My Episode】の【from】は8字以内で入力してください。"
  end.

Definition handlePrint (data : SheetData) : list Call :=
  let visionErrors :=
    filter (fun v => ¬ validateTextLength v 30) (visions data) in
  if decide (0 < length visionErrors) then
    [Alert (alertMessage VisionTooLong)]
  else if negb (validateTextLength (engineSlogan data) 30) then
    [Alert (alertMessage SloganTooLong)]
  else
    let engineErrors :=
      filter (fun e => ¬ validateTextLength e 30) (engines data) in
    if decide (0 < length engineErrors) then
      [Alert (alertMessage EngineTooLong)]
    else
      let episodeTextErrors :=
        filter (fun ep => ¬ validateTextLength (text ep) 80) (episodes data) in
      if decide (0 < length episodeTextErrors) then
        [Alert (alertMessage EpisodeTextTooLong)]
      else
        let episodeFromErrors :=
          filter (fun ep => ¬ validateTextLength (from ep) 8) (episodes data) in
        if decide (0 < length episodeFromErrors) then
          [Alert (alertMessage EpisodeFromTooLong)]
        else [WindowPrint].

(** The validation pass of [handlePrint] on its own: the same five tests in
    the same order, each early [return] recorded as its violation. *)
Inductive ValidationResult : Type :=
| Ok
| Violated (k : Violation).

Definition validate (data : SheetData) : ValidationResult :=
  if decide (0 < length (filter (fun v => ¬ validateTextLength v 30)
                                (visions data))) then
    Violated VisionTooLong
  else if negb (validateTextLength (engineSlogan data) 30) then
    Violated SloganTooLong
  else if decide (0 < length (filter (fun e => ¬ validateTextLength e 30)
                                     (engines data))) then
    Violated EngineTooLong
  else if decide (0 < length (filter (fun ep => ¬ validateTextLength (text ep) 80)
                                     (episodes data))) then
    Violated EpisodeTextTooLong
  else if decide (0 < length (filter (fun ep => ¬ validateTextLength (from ep) 8)
                                     (episodes data))) then
    Violated EpisodeFromTooLong
  else Ok.

(** ** The component

    The state cell holds one object.  React compares the old and the new
    content of the cell, and the old and the new dependency of the effect,
    with [Object.is], which for objects is identity: [data_id] is the
    identity of the object in the cell and [next_id] the next one that an
    object literal will get. *)

Record App : Type := {
  data : SheetData;
  data_id : nat;
  next_id : nat;
  storage : Storage
}.

(** [setData(updater)]: the updater builds a new object; unless it is the
    object already in the cell the component renders again and, [data]
    having changed, the save effect runs. *)
Definition setData (updater : SheetData -> option SheetData) (app : App)
  : option (list Call * App) :=
  next ← updater (data app);
  let id := next_id app in
  if decide (id = data_id app) then
    Some ([], {| data := data app; data_id := data_id app;
                 next_id := S id; storage := storage app |})
  else
    let '(calls, st') := saveEffect next (storage app) in
    Some (calls, {| data := next; data_id := id;
                    next_id := S id; storage := st' |}).

Inductive Event : Type :=
| VisionInput (index : nat) (value : jsstring)
| SloganInput (value : jsstring)
| EngineInput (index : nat) (value : jsstring)
| EpisodeInput (index : nat) (field : EpisodeKey) (value : jsstring)
| PrintClick.

Definition step (ev : Event) (app : App) : option (list Call * App) :=
  match ev with
  | VisionInput index value => setData (handleVisionChange index value) app
  | SloganInput value => setData (handleSloganChange value) app
  | EngineInput index value => setData (handleEngineChange index value) app
  | EpisodeInput index field value =>
      setData (handleEpisodeChange index field value) app
  | PrintClick => Some (handlePrint (data app), app)
  end.

(** Identities are handed out in increasing order, so the object in the cell
    is older than the next one. *)
Definition well_formed (app : App) : Prop := data_id app < next_id app.

Definition is_SetItem (c : Call) : bool :=
  match c with
  | SetItemCall _ _ => true
  | _ => false
  end.

Definition is_WindowPrint (c : Call) : bool :=
  match c with
  | WindowPrint => true
  | _ => false
  end.

Definition count_calls (p : Call -> bool) (calls : list Call) : nat :=
  length (List.filter p calls).

(** ** The rules of the specification, as it words them *)

Definition spec_within_limits (d : SheetData) : Prop :=
  Forall (fun v => length v <= 30) (visions d)
  ∧ length (engineSlogan d) <= 30
  ∧ Forall (fun e => length e <= 30) (engines d)
  ∧ Forall (fun ep => length (text ep) <= 80) (episodes d)
  ∧ Forall (fun ep => length (from ep) <= 8) (episodes d).

Definition spec_violates (k : Violation) (d : SheetData) : Prop :=
  match k with
  | VisionTooLong => Exists (fun v => 30 < length v) (visions d)
  | SloganTooLong => 30 < length (engineSlogan d)
  | EngineTooLong => Exists (fun e => 30 < length e) (engines d)
  | EpisodeTextTooLong => Exists (fun ep => 80 < length (text ep)) (episodes d)
  | EpisodeFromTooLong => Exists (fun ep => 8 < length (from ep)) (episodes d)
  end.

Definition spec_precedence (k : Violation) : nat :=
  match k with
  | VisionTooLong => 1
  | SloganTooLong => 2
  | EngineTooLong => 3
  | EpisodeTextTooLong => 4
  | EpisodeFromTooLong => 5
  end.

(** The shape the specification asks of a stored value. *)
Definition spec_shape (v : json) : Prop :=
  (∃ l, get_prop v (js "visions") = Some (JArray l))
  ∧ (∃ s, get_prop v (js "engineSlogan") = Some (JString s))
  ∧ (∃ l, get_prop v (js "engines") = Some (JArray l))
  ∧ (∃ l, get_prop v (js "episodes") = Some (JArray l)).

Definition fixed_shape (d : SheetData) : Prop :=
  length (visions d) = 3 ∧ length (engines d) = 3 ∧ length (episodes d) = 6.

(** ** Records, stores and texts used in the statements *)

Definition allEmpty (d : SheetData) : Prop :=
  Forall (fun v => v = []) (visions d)
  ∧ engineSlogan d = []
  ∧ Forall (fun e => e = []) (engines d)
  ∧ Forall (fun ep => from ep = [] ∧ text ep = []) (episodes d).

(** A vision and the slogan of 31 characters each. *)
Definition twoTooLong : SheetData :=
  {| visions := [[]; replicate 31 120%N; []];
     engineSlogan := replicate 31 120%N;
     engines := [[]; []; []];
     episodes := emptyEpisodes |}.

(** A component just mounted on an empty, roomy store. *)
Definition freshApp : App :=
  {| data := defaultData; data_id := 0; next_id := 1;
     storage := {| items := ∅; quota := 2000 |} |}.

(** A store with no room left. *)
Definition fullStore : Storage := {| items := ∅; quota := 0 |}.

(** The store holds the text [not json] under the key. *)
Definition notJsonStore : Storage :=
  {| items := {[ STORAGE_KEY := js "not json" ]}; quota := 100 |}.

Definition elevenChars : jsstring := js "12345678901".

(** An ASCII literal in which an apostrophe stands for the double quote. *)
Definition jsq (s : string) : jsstring :=
  (fun c => if (c =? 39)%N then QUOTE else c) <$> js s.

(** One vision which is a number, no engine, one episode which is [null]. *)
Definition oddBlob : jsstring :=
  jsq "{'visions':[1],'engineSlogan':'','engines':[],'episodes':[null]}".

Definition oddStore : Storage :=
  {| items := {[ STORAGE_KEY := oddBlob ]}; quota := 100 |}.

Definition oddValue : json :=
  JObject [(js "visions", JArray [JNumber (js "1")]);
           (js "engineSlogan", JString []);
           (js "engines", JArray []);
           (js "episodes", JArray [JNull])].

(** ** Notions used to relate the serializer and the parser *)

(** With at least [need] fuel the parser reads the text [txt] as the value
    [v] and stops right after it. *)
Definition parses_as (need : nat) (txt : jsstring) (v : json) : Prop :=
  ∀ f rest, need <= f -> parse_value f (txt ++ rest) = Some (v, rest).

(** A field of an object being read back: its name, the text of its value
    and that value. *)
Definition field : Type := jsstring * jsstring * json.

Definition printed (fd : field) : jsstring * jsstring := (fd.1.1, fd.1.2).

Definition defined (fds : list field) (acc : list (jsstring * json))
  : list (jsstring * json) :=
  foldl (fun acc fd => define_prop fd.1.1 fd.2 acc) acc fds.

Definition fuel_for (d : SheetData) : nat :=
  13 + length (visions d) + length (engines d) + length (episodes d).

(** A parser that succeeds with fuel [f] returns a suffix of the text and
    succeeds alike with any fuel above the number of characters it took. *)
Definition enough_fuel {A} (p : nat -> jsstring -> A -> option (json * jsstring))
    (f : nat) : Prop :=
  ∀ s a v rest,
    p f s a = Some (v, rest) ->
    length rest <= length s
    ∧ ∀ f', length s - length rest < f' -> p f' s a = Some (v, rest).

(** ** What the component renders

    The parts of the JSX that depend on the state: for every field the
    border class chosen by its length, the value shown and the event its
    [onChange] raises; for an episode text also the font size. *)

Record InputBox : Type := {
  box_border : string;
  box_value : jsstring;
  box_onChange : jsstring -> Event
}.

Record EpisodeCard : Type := {
  card_border : string;
  from_border : string;
  from_value : jsstring;
  from_onChange : jsstring -> Event;
  text_value : jsstring;
  text_fontSize : string;
  text_onChange : jsstring -> Event
}.

Record View : Type := {
  visionBoxes : list InputBox;
  sloganBox : InputBox;
  engineBoxes : list InputBox;
  episodeCards : list EpisodeCard;
  printButton : Event
}.

Definition render (data : SheetData) : View :=
  {| visionBoxes :=
       imap (fun i v =>
               {| box_border := if bool_decide (30 < length v)
                                then "border-red-500" else "border-black";
                  box_value := v;
                  box_onChange := VisionInput i |}) (visions data);
     sloganBox :=
       {| box_border := if bool_decide (30 < length (engineSlogan data))
                        then "border-red-500" else "border-black";
          box_value := engineSlogan data;
          box_onChange := SloganInput |};
     engineBoxes :=
       imap (fun i e =>
               {| box_border := if bool_decide (30 < length e)
                                then "border-red-500" else "border-black";
                  box_value := e;
                  box_onChange := EngineInput i |}) (engines data);
     episodeCards :=
       imap (fun i ep =>
               {| card_border :=
                    if bool_decide (80 < length (text ep))
                       || bool_decide (8 < length (from ep))
                    then "border-red-500" else "border-black";
                  from_border := if bool_decide (8 < length (from ep))
                                 then "border-red-500" else "border-black/40";
                  from_value := from ep;
                  from_onChange := EpisodeInput i key_from;
                  text_value := text ep;
                  text_fontSize := getEpisodeFontSize (length (text ep));
                  text_onChange := EpisodeInput i key_text |})
            (episodes data);
     printButton := PrintClick |}.

(** The events a view can raise: an input with any new value, or a click on
    the print button. *)
Definition raises (v : View) (ev : Event) : Prop :=
  (∃ b x, b ∈ visionBoxes v ∧ ev = box_onChange b x)
  ∨ (∃ x, ev = box_onChange (sloganBox v) x)
  ∨ (∃ b x, b ∈ engineBoxes v ∧ ev = box_onChange b x)
  ∨ (∃ c x, c ∈ episodeCards v
            ∧ (ev = from_onChange c x ∨ ev = text_onChange c x))
  ∨ ev = printButton v.

(** No field of the view is drawn with the red border. *)
Definition no_red (v : View) : Prop :=
  Forall (fun b => box_border b ≠ "border-red-500") (visionBoxes v)
  ∧ box_border (sloganBox v) ≠ "border-red-500"
  ∧ Forall (fun b => box_border b ≠ "border-red-500") (engineBoxes v)
  ∧ Forall (fun c => card_border c ≠ "border-red-500") (episodeCards v).

(** ** Mounting and running the component *)

(** The record a JavaScript value is the value of, if it is one: an object
    with the properties in the order in which the program writes them.  Any
    other value is not described by [SheetData]. *)
Definition fromJS_string (v : json) : option jsstring :=
  match v with
  | JString s => Some s
  | _ => None
  end.

Definition fromJS_Episode (v : json) : option Episode :=
  match v with
  | JObject [(k1, JString f); (k2, JString t)] =>
      if decide (k1 = js "from" ∧ k2 = js "text")
      then Some {| from := f; text := t |} else None
  | _ => None
  end.

Definition fromJS (v : json) : option SheetData :=
  match v with
  | JObject [(k1, JArray vs); (k2, JString s); (k3, JArray es);
             (k4, JArray ps)] =>
      if decide (k1 = js "visions" ∧ k2 = js "engineSlogan"
                 ∧ k3 = js "engines" ∧ k4 = js "episodes")
      then
        vs' ← mapM fromJS_string vs;
        es' ← mapM fromJS_string es;
        ps' ← mapM fromJS_Episode ps;
        Some {| visions := vs'; engineSlogan := s; engines := es';
                episodes := ps' |}
      else None
  | _ => None
  end.

(** The first render and the effects after it: the state cell gets the
    value of the [useState] initializer and the save effect runs on it.  The
    result is [None] when that value is no [SheetData]. *)
Definition mount (st : Storage) : option (list Call * App) :=
  d ← fromJS (initialData st);
  let '(calls, st') := saveEffect d st in
  Some ((loadDataFromStorage st).1 ++ calls,
        {| data := d; data_id := 0; next_id := 1; storage := st' |}).

(** Events handled one after the other. *)
Fixpoint run (evs : list Event) (app : App) : option (list Call * App) :=
  match evs with
  | [] => Some ([], app)
  | ev :: evs' =>
      match step ev app with
      | Some (calls, app') =>
          match run evs' app' with
          | Some (calls', app'') => Some (calls ++ calls', app'')
          | None => None
          end
      | None => None
      end
  end.

(** Every event of the list is raised by the view rendered at the time. *)
Fixpoint raised_in_turn (evs : list Event) (app : App) : Prop :=
  match evs with
  | [] => True
  | ev :: evs' =>
      raises (render (data app)) ev
      ∧ ∀ calls app', step ev app = Some (calls, app') ->
                      raised_in_turn evs' app'
  end.

Definition is_Alert (c : Call) : bool :=
  match c with
  | Alert _ => true
  | _ => false
  end.

Definition is_mutation (ev : Event) : bool :=
  match ev with
  | PrintClick => false
  | _ => true
  end.

(** The updater an input event passes to [setData]; a print click passes
    none. *)
Definition updater_of (ev : Event)
  : option (SheetData -> option SheetData) :=
  match ev with
  | VisionInput index value => Some (handleVisionChange index value)
  | SloganInput value => Some (handleSloganChange value)
  | EngineInput index value => Some (handleEngineChange index value)
  | EpisodeInput index field value =>
      Some (handleEpisodeChange index field value)
  | PrintClick => None
  end.

(** The field of the record an input event writes. *)
Inductive Field : Type :=
| FVision (index : nat)
| FSlogan
| FEngine (index : nat)
| FEpisode (index : nat) (key : EpisodeKey).

Definition target (ev : Event) : option Field :=
  match ev with
  | VisionInput index _ => Some (FVision index)
  | SloganInput _ => Some FSlogan
  | EngineInput index _ => Some (FEngine index)
  | EpisodeInput index field _ => Some (FEpisode index field)
  | PrintClick => None
  end.

(** The value an input event carries. *)
Definition entered (ev : Event) : jsstring :=
  match ev with
  | VisionInput _ value => value
  | SloganInput value => value
  | EngineInput _ value => value
  | EpisodeInput _ _ value => value
  | PrintClick => []
  end.

(** The limit [handlePrint] tests a field against and the violation it
    reports for it. *)
Definition limit_of (f : Field) : nat :=
  match f with
  | FVision _ => 30
  | FSlogan => 30
  | FEngine _ => 30
  | FEpisode _ key_text => 80
  | FEpisode _ key_from => 8
  end.

Definition group_of (f : Field) : Violation :=
  match f with
  | FVision _ => VisionTooLong
  | FSlogan => SloganTooLong
  | FEngine _ => EngineTooLong
  | FEpisode _ key_text => EpisodeTextTooLong
  | FEpisode _ key_from => EpisodeFromTooLong
  end.

(** The two records have the same lengths field by field. *)
Definition same_lengths (d d' : SheetData) : Prop :=
  length <$> visions d = length <$> visions d'
  ∧ length (engineSlogan d) = length (engineSlogan d')
  ∧ length <$> engines d = length <$> engines d'
  ∧ (fun ep => (length (from ep), length (text ep))) <$> episodes d
    = (fun ep => (length (from ep), length (text ep))) <$> episodes d'.

(** * Properties *)

(** ** Validation *)

Lemma too_long_iff (s : jsstring) (n : nat) :
  ¬ validateTextLength s n ↔ n < length s.
Proof. unfold validateTextLength. rewrite bool_decide_spec. lia. Qed.

Lemma filter_nonempty_Exists {A} (P : A -> Prop) `{!∀ x, Decision (P x)}
    (l : list A) :
  0 < length (filter P l) ↔ Exists P l.
Proof.
  induction l as [|x l IH]; simpl.
  - split; [lia | by intros ?%Exists_nil].
  - rewrite filter_cons, Exists_cons. destruct (decide (P x)); simpl.
    + split; [by left | lia].
    + rewrite IH. tauto.
Qed.

Lemma errors_nonempty {A} (f : A -> jsstring) (n : nat) (l : list A) :
  0 < length (filter (fun x => ¬ validateTextLength (f x) n) l)
  ↔ Exists (fun x => n < length (f x)) l.
Proof.
  rewrite filter_nonempty_Exists. apply Exists_proper; [|done].
  intros x. apply too_long_iff.
Qed.

Lemma no_errors_Forall {A} (f : A -> jsstring) (n : nat) (l : list A) :
  ¬ Exists (fun x => n < length (f x)) l
  ↔ Forall (fun x => length (f x) <= n) l.
Proof.
  rewrite <-Forall_Exists_neg. apply Forall_proper; [|done].
  intros x. lia.
Qed.

(** [validate] is the validation pass of [handlePrint]. *)
Lemma handlePrint_validate (d : SheetData) :
  handlePrint d =
  match validate d with
  | Ok => [WindowPrint]
  | Violated k => [Alert (alertMessage k)]
  end.
Proof.
  unfold handlePrint, validate.
  repeat (case_decide || destruct (negb _)); reflexivity.
Qed.

(** What each outcome of [validate] says about the record. *)
Lemma validate_sound (d : SheetData) :
  match validate d with
  | Ok => spec_within_limits d
  | Violated k =>
      spec_violates k d
      ∧ ∀ k', spec_precedence k' < spec_precedence k -> ¬ spec_violates k' d
  end.
Proof.
  unfold validate.
  pose proof (errors_nonempty id 30 (visions d)) as Hv.
  pose proof (errors_nonempty id 30 (engines d)) as He.
  pose proof (errors_nonempty text 80 (episodes d)) as Ht.
  pose proof (errors_nonempty from 8 (episodes d)) as Hf.
  pose proof (too_long_iff (engineSlogan d) 30) as Hs.
  simpl in Hv, He.
  destruct (validateTextLength (engineSlogan d) 30) eqn:Hslogan; simpl;
    repeat case_decide; simpl;
    try (split; [tauto || (apply Hs; intros []) |];
         intros [] Hlt; simpl in *; try lia; tauto).
  unfold spec_within_limits.
  rewrite <-!(no_errors_Forall id), <-(no_errors_Forall text),
    <-(no_errors_Forall from). simpl.
  assert (¬ 30 < length (engineSlogan d)) by (intros Hlong%Hs; by apply Hlong).
  repeat split; try tauto; lia.
Qed.

Lemma within_limits_no_violation (d : SheetData) (k : Violation) :
  spec_within_limits d -> ¬ spec_violates k d.
Proof.
  intros (Hv & Hs & He & Ht & Hf).
  destruct k; simpl; try lia.
  - by apply (no_errors_Forall id).
  - by apply (no_errors_Forall id).
  - by apply (no_errors_Forall text).
  - by apply (no_errors_Forall from).
Qed.

Lemma spec_precedence_inj (k k' : Violation) :
  spec_precedence k = spec_precedence k' -> k = k'.
Proof. destruct k, k'; simpl; intros; congruence. Qed.

Lemma validate_within_limits (d : SheetData) :
  spec_within_limits d -> validate d = Ok.
Proof.
  intros Hok. pose proof (validate_sound d) as Hsound.
  destruct (validate d) as [|k]; [done|].
  destruct Hsound as [Hk _]. by destruct (within_limits_no_violation d k).
Qed.

Lemma validate_first_violation (d : SheetData) (k : Violation) :
  spec_violates k d ->
  (∀ k', spec_precedence k' < spec_precedence k -> ¬ spec_violates k' d) ->
  validate d = Violated k.
Proof.
  intros Hk Hfirst. pose proof (validate_sound d) as Hsound.
  destruct (validate d) as [|k0].
  - by destruct (within_limits_no_violation d k).
  - destruct Hsound as [Hk0 Hfirst0]. f_equal.
    apply spec_precedence_inj.
    destruct (Nat.lt_trichotomy (spec_precedence k0) (spec_precedence k))
      as [Hlt|[Heq|Hgt]]; [|done|].
    + by destruct (Hfirst k0).
    + by destruct (Hfirst0 k).
Qed.

(** C1.  A record within every limit validates; otherwise the violation
    reported is the one of the first violated rule in the order vision,
    slogan, engine, episode text, episode from, whatever else is violated. *)
Theorem validate_first_violated_rule (d : SheetData) :
  (spec_within_limits d -> validate d = Ok)
  ∧ (¬ spec_within_limits d -> ∃ k, validate d = Violated k)
  ∧ (∀ k, spec_violates k d ->
          (∀ k', spec_precedence k' < spec_precedence k -> ¬ spec_violates k' d) ->
          validate d = Violated k).
Proof.
  split; [apply validate_within_limits|].
  split; [|apply validate_first_violation].
  intros Hbad. pose proof (validate_sound d) as Hsound.
  destruct (validate d) as [|k]; [done | by exists k].
Qed.

Lemma validate_first_violated_rule_witness :
  (spec_within_limits defaultData ∧ validate defaultData = Ok)
  ∧ (spec_violates VisionTooLong twoTooLong
     ∧ spec_violates SloganTooLong twoTooLong
     ∧ validate twoTooLong = Violated VisionTooLong).
Proof.
  assert (Hok : spec_within_limits defaultData)
    by (repeat split; repeat constructor; simpl; lia).
  assert (Hvision : spec_violates VisionTooLong twoTooLong)
    by (simpl; right; left; simpl; lia).
  assert (Hslogan : spec_violates SloganTooLong twoTooLong)
    by (simpl; lia).
  split.
  - split; [exact Hok|].
    exact (proj1 (validate_first_violated_rule defaultData) Hok).
  - split; [exact Hvision|]. split; [exact Hslogan|].
    apply (proj2 (proj2 (validate_first_violated_rule twoTooLong))
             VisionTooLong Hvision).
    intros k' Hlt. destruct k'; simpl in Hlt; lia.
Defined.

(** A slogan of 31 characters alone. *)
Example validate_slogan_31 :
  (d' ← handleSloganChange (replicate 31 120%N) defaultData; Some (validate d'))
  = Some (Violated SloganTooLong).
Proof. reflexivity. Qed.

Example validate_default : validate defaultData = Ok.
Proof. reflexivity. Qed.

(** ** The print button *)

Lemma count_print_validate (d : SheetData) :
  count_calls is_WindowPrint (handlePrint d) =
  match validate d with Ok => 1 | Violated _ => 0 end.
Proof. rewrite handlePrint_validate. by destruct (validate d). Qed.

(** C2.  A click on the print button calls [window.print] exactly when the
    record validates, and then once; on a violation it raises the alert of
    that violation and does not print.  Either way the component is left as
    it was: nothing records that a print was asked for. *)
Theorem print_iff_validate_ok (app : App) :
  ∃ calls,
    step PrintClick app = Some (calls, app)
    ∧ (In WindowPrint calls ↔ validate (data app) = Ok)
    ∧ match validate (data app) with
      | Ok => calls = [WindowPrint] ∧ count_calls is_WindowPrint calls = 1
      | Violated k =>
          calls = [Alert (alertMessage k)]
          ∧ count_calls is_WindowPrint calls = 0
      end.
Proof.
  exists (handlePrint (data app)). split; [done|].
  rewrite count_print_validate, handlePrint_validate.
  destruct (validate (data app)) as [|k]; simpl.
  - split; [|done]. split; [done | by left].
  - split; [|done]. split; [|done]. by intros [?|[]].
Qed.

(** ** The change handlers *)

Lemma dense_some {A} (l : list A) : dense (Some <$> l) = Some l.
Proof. unfold dense. by apply mapM_fmap_Some. Qed.

Lemma array_assign_in_range {A} (xs : list A) (i : nat) (v : A) :
  i < length xs ->
  dense (array_assign (Some <$> xs) i v) = Some (<[i := v]> xs).
Proof.
  intros Hi. unfold array_assign.
  rewrite length_fmap, decide_True by done.
  by rewrite <-list_fmap_insert, dense_some.
Qed.

Lemma handleVisionChange_in_range (i : nat) (v : jsstring) (d : SheetData) :
  i < length (visions d) ->
  handleVisionChange i v d =
  Some {| visions := <[i := v]> (visions d); engineSlogan := engineSlogan d;
          engines := engines d; episodes := episodes d |}.
Proof.
  intros Hi. unfold handleVisionChange.
  by rewrite array_assign_in_range.
Qed.

Lemma handleEngineChange_in_range (i : nat) (v : jsstring) (d : SheetData) :
  i < length (engines d) ->
  handleEngineChange i v d =
  Some {| visions := visions d; engineSlogan := engineSlogan d;
          engines := <[i := v]> (engines d); episodes := episodes d |}.
Proof.
  intros Hi. unfold handleEngineChange.
  by rewrite array_assign_in_range.
Qed.

(** The [map] of [handleEpisodeChange] is an update in place. *)
Lemma imap_set_field (i : nat) (field : EpisodeKey) (v : jsstring)
    (l : list Episode) :
  imap (fun j ep => if decide (j = i) then set_field field v ep else ep) l
  = alter (set_field field v) i l.
Proof.
  revert i. induction l as [|ep l IH]; intros i; [done|].
  rewrite imap_cons. destruct i as [|i]; simpl.
  - f_equal. rewrite <-(list_fmap_id l) at 2. rewrite <-imap_const.
    apply imap_ext. intros j x _. unfold compose.
    destruct (decide (S j = 0)); [lia | done].
  - f_equal. etrans; [|apply (IH i)].
    apply imap_ext. intros j x _. unfold compose.
    destruct (decide (j = i)), (decide (S j = S i)); done || lia.
Qed.

Lemma handleEpisodeChange_alter (i : nat) (field : EpisodeKey) (v : jsstring)
    (d : SheetData) :
  handleEpisodeChange i field v d =
  Some {| visions := visions d; engineSlogan := engineSlogan d;
          engines := engines d;
          episodes := alter (set_field field v) i (episodes d) |}.
Proof. unfold handleEpisodeChange. by rewrite imap_set_field. Qed.

(** At the end of the array the assignment appends, and further out it
    leaves empty slots: only an index inside the sequence keeps its length. *)
Example handleVisionChange_at_end :
  visions <$> handleVisionChange 3 (js "x") defaultData
  = Some [[]; []; []; js "x"].
Proof. reflexivity. Qed.

Example handleVisionChange_past_end :
  handleVisionChange 5 (js "x") defaultData = None
  ∧ array_assign (Some <$> visions defaultData) 5 (js "x")
    = [Some []; Some []; Some []; None; None; Some (js "x")].
Proof. split; reflexivity. Qed.

Lemma alter_insert {A} (f : A -> A) (i : nat) (l : list A) (x : A) :
  l !! i = Some x -> alter f i l = <[i := f x]> l.
Proof.
  intros Hx. apply list_eq. intros j. destruct (decide (j = i)) as [->|Hne].
  - rewrite list_lookup_alter_eq, Hx. simpl.
    by rewrite list_lookup_insert_eq by by eapply lookup_lt_Some.
  - by rewrite list_lookup_alter_ne, list_lookup_insert_ne.
Qed.

(** C5.  On a record with 3 visions, 3 engines and 6 episodes, each handler
    called with an index inside its sequence replaces the element at that
    index, for an episode by the episode with the named field set to the
    value, and yields a record with 3 visions, 3 engines and 6 episodes
    again. *)
Theorem handlers_keep_fixed_shape (d : SheetData) (index : nat)
    (field : EpisodeKey) (value : jsstring) :
  fixed_shape d ->
  (index < 3 ->
   ∃ d', handleVisionChange index value d = Some d'
         ∧ visions d' = <[index := value]> (visions d)
         ∧ fixed_shape d')
  ∧ (index < 3 ->
     ∃ d', handleEngineChange index value d = Some d'
           ∧ engines d' = <[index := value]> (engines d)
           ∧ fixed_shape d')
  ∧ (index < 6 ->
     ∃ d' ep,
       handleEpisodeChange index field value d = Some d'
       ∧ episodes d !! index = Some ep
       ∧ episodes d'
         = <[index := match field with
                      | key_from => {| from := value; text := text ep |}
                      | key_text => {| from := from ep; text := value |}
                      end]> (episodes d)
       ∧ length (episodes d') = length (episodes d)
       ∧ fixed_shape d').
Proof.
  intros (Hv & He & Hp). repeat split.
  - intros Hi. eexists. split; [|split].
    + apply handleVisionChange_in_range. lia.
    + done.
    + unfold fixed_shape; simpl. by rewrite length_insert.
  - intros Hi. eexists. split; [|split].
    + apply handleEngineChange_in_range. lia.
    + done.
    + unfold fixed_shape; simpl. by rewrite length_insert.
  - intros Hi.
    destruct (lookup_lt_is_Some_2 (episodes d) index) as [ep Hep]; [lia|].
    eexists _, ep. split; [apply handleEpisodeChange_alter|].
    split; [done|]. simpl. split; [|split].
    + rewrite (alter_insert _ _ _ ep Hep). by destruct field.
    + by rewrite length_alter.
    + unfold fixed_shape; simpl. by rewrite length_alter.
Qed.

Lemma handlers_keep_fixed_shape_witness :
  fixed_shape defaultData
  ∧ (∃ d', handleVisionChange 1 (js "abc") defaultData = Some d'
           ∧ visions d' = <[1 := js "abc"]> (visions defaultData)
           ∧ fixed_shape d')
  ∧ (∃ d', handleEngineChange 2 (js "abc") defaultData = Some d'
           ∧ engines d' = <[2 := js "abc"]> (engines defaultData)
           ∧ fixed_shape d')
  ∧ (∃ d' ep,
       handleEpisodeChange 5 key_text (js "abc") defaultData = Some d'
       ∧ episodes defaultData !! 5 = Some ep
       ∧ episodes d'
         = <[5 := {| from := from ep; text := js "abc" |}]>
             (episodes defaultData)
       ∧ length (episodes d') = length (episodes defaultData)
       ∧ fixed_shape d').
Proof.
  assert (Hshape : fixed_shape defaultData) by (repeat split; reflexivity).
  split; [exact Hshape|].
  split; [|split].
  - apply (handlers_keep_fixed_shape defaultData 1 key_from (js "abc") Hshape).
    lia.
  - apply (handlers_keep_fixed_shape defaultData 2 key_from (js "abc") Hshape).
    lia.
  - apply (handlers_keep_fixed_shape defaultData 5 key_text (js "abc") Hshape).
    lia.
Defined.

(** C6.  With an index inside the sequence, [handleVisionChange] and
    [handleEngineChange] put the value at that index and change no other
    element and no other field; [handleEpisodeChange] changes the named
    field of the episode at that index and nothing else. *)
Theorem handlers_frame (d : SheetData) (index : nat) (value : jsstring) :
  (index < length (visions d) ->
   ∃ d', handleVisionChange index value d = Some d'
     ∧ visions d' !! index = Some value
     ∧ (∀ j, j ≠ index -> visions d' !! j = visions d !! j)
     ∧ length (visions d') = length (visions d)
     ∧ engineSlogan d' = engineSlogan d
     ∧ engines d' = engines d
     ∧ episodes d' = episodes d)
  ∧ (index < length (engines d) ->
     ∃ d', handleEngineChange index value d = Some d'
       ∧ engines d' !! index = Some value
       ∧ (∀ j, j ≠ index -> engines d' !! j = engines d !! j)
       ∧ length (engines d') = length (engines d)
       ∧ visions d' = visions d
       ∧ engineSlogan d' = engineSlogan d
       ∧ episodes d' = episodes d)
  ∧ (∀ ep, episodes d !! index = Some ep ->
     (∃ d', handleEpisodeChange index key_from value d = Some d'
        ∧ episodes d' !! index = Some {| from := value; text := text ep |}
        ∧ (∀ j, j ≠ index -> episodes d' !! j = episodes d !! j)
        ∧ length (episodes d') = length (episodes d)
        ∧ visions d' = visions d
        ∧ engineSlogan d' = engineSlogan d
        ∧ engines d' = engines d)
     ∧ (∃ d', handleEpisodeChange index key_text value d = Some d'
          ∧ episodes d' !! index = Some {| from := from ep; text := value |}
          ∧ (∀ j, j ≠ index -> episodes d' !! j = episodes d !! j)
          ∧ length (episodes d') = length (episodes d)
          ∧ visions d' = visions d
          ∧ engineSlogan d' = engineSlogan d
          ∧ engines d' = engines d)).
Proof.
  split; [|split].
  - intros Hi. eexists. split; [by apply handleVisionChange_in_range|]. simpl.
    split; [by apply list_lookup_insert_eq|].
    split; [by intros j Hj; apply list_lookup_insert_ne|].
    by rewrite length_insert.
  - intros Hi. eexists. split; [by apply handleEngineChange_in_range|]. simpl.
    split; [by apply list_lookup_insert_eq|].
    split; [by intros j Hj; apply list_lookup_insert_ne|].
    by rewrite length_insert.
  - intros ep Hep. split.
    + eexists. split; [apply handleEpisodeChange_alter|]. simpl.
      split; [by rewrite list_lookup_alter_eq, Hep|].
      split; [by intros j Hj; apply list_lookup_alter_ne|].
      by rewrite length_alter.
    + eexists. split; [apply handleEpisodeChange_alter|]. simpl.
      split; [by rewrite list_lookup_alter_eq, Hep|].
      split; [by intros j Hj; apply list_lookup_alter_ne|].
      by rewrite length_alter.
Qed.

Lemma handlers_frame_witness :
  (∃ d', handleVisionChange 0 (js "go") defaultData = Some d'
     ∧ visions d' !! 0 = Some (js "go")
     ∧ (∀ j, j ≠ 0 -> visions d' !! j = visions defaultData !! j)
     ∧ length (visions d') = length (visions defaultData)
     ∧ engineSlogan d' = engineSlogan defaultData
     ∧ engines d' = engines defaultData
     ∧ episodes d' = episodes defaultData)
  ∧ (∃ d', handleEngineChange 0 (js "go") defaultData = Some d'
       ∧ engines d' !! 0 = Some (js "go")
       ∧ (∀ j, j ≠ 0 -> engines d' !! j = engines defaultData !! j)
       ∧ length (engines d') = length (engines defaultData)
       ∧ visions d' = visions defaultData
       ∧ engineSlogan d' = engineSlogan defaultData
       ∧ episodes d' = episodes defaultData)
  ∧ (∃ d', handleEpisodeChange 0 key_text (js "go") defaultData = Some d'
       ∧ episodes d' !! 0 = Some {| from := []; text := js "go" |}
       ∧ (∀ j, j ≠ 0 -> episodes d' !! j = episodes defaultData !! j)
       ∧ length (episodes d') = length (episodes defaultData)
       ∧ visions d' = visions defaultData
       ∧ engineSlogan d' = engineSlogan defaultData
       ∧ engines d' = engines defaultData).
Proof.
  destruct (handlers_frame defaultData 0 (js "go")) as (Hv & He & Hp).
  split; [apply Hv; simpl; lia|].
  split; [apply He; simpl; lia|].
  exact (proj2 (Hp {| from := []; text := [] |} eq_refl)).
Defined.

(** ** Writing a field's current value *)

Lemma saveEffect_one_call (d : SheetData) (st : Storage) :
  List.filter is_SetItem (saveEffect d st).1
  = [SetItemCall STORAGE_KEY (JSON_stringify d)].
Proof. unfold saveEffect. by destruct (setItem _ _ _). Qed.

(** After an updater that returns a record, a well-formed component has run
    the save effect once on that record. *)
Lemma setData_saves (updater : SheetData -> option SheetData) (app : App)
    (next : SheetData) :
  well_formed app ->
  updater (data app) = Some next ->
  ∃ calls app',
    setData updater app = Some (calls, app')
    ∧ data app' = next
    ∧ data_id app' ≠ data_id app
    ∧ well_formed app'
    ∧ List.filter is_SetItem calls
      = [SetItemCall STORAGE_KEY (JSON_stringify next)].
Proof.
  unfold well_formed, setData. intros Hwf ->. simpl.
  rewrite decide_False by lia.
  pose proof (saveEffect_one_call next (storage app)) as Hcalls.
  destruct (saveEffect next (storage app)) as [calls st'].
  eexists _, _. split; [done|]. simpl. repeat split; [lia | lia | done].
Qed.

(** Every step keeps the component well formed. *)
Lemma step_well_formed (ev : Event) (app app' : App) (calls : list Call) :
  well_formed app -> step ev app = Some (calls, app') -> well_formed app'.
Proof.
  intros Hwf Hstep.
  assert (Hset : ∀ updater, setData updater app = Some (calls, app') ->
                            well_formed app').
  { intros updater Hs. destruct (updater (data app)) as [next|] eqn:Hupd.
    - destruct (setData_saves updater app next Hwf Hupd)
        as (calls0 & app0 & Hs0 & _ & _ & Hwf0 & _).
      rewrite Hs in Hs0. by injection Hs0 as -> ->.
    - unfold setData in Hs. by rewrite Hupd in Hs. }
  destruct ev; simpl in Hstep; eauto.
  by injection Hstep as _ <-.
Qed.

Lemma record_eta (d : SheetData) :
  {| visions := visions d; engineSlogan := engineSlogan d;
     engines := engines d; episodes := episodes d |} = d.
Proof. by destruct d. Qed.

Lemma handleVisionChange_current (i : nat) (v : jsstring) (d : SheetData) :
  visions d !! i = Some v -> handleVisionChange i v d = Some d.
Proof.
  intros Hv. rewrite handleVisionChange_in_range by by eapply lookup_lt_Some.
  by rewrite list_insert_id, record_eta.
Qed.

Lemma handleEngineChange_current (i : nat) (v : jsstring) (d : SheetData) :
  engines d !! i = Some v -> handleEngineChange i v d = Some d.
Proof.
  intros Hv. rewrite handleEngineChange_in_range by by eapply lookup_lt_Some.
  by rewrite list_insert_id, record_eta.
Qed.

Lemma handleSloganChange_current (d : SheetData) :
  handleSloganChange (engineSlogan d) d = Some d.
Proof. unfold handleSloganChange. by rewrite record_eta. Qed.

Lemma alter_current {A} (f : A -> A) (i : nat) (l : list A) (x : A) :
  l !! i = Some x -> f x = x -> alter f i l = l.
Proof.
  intros Hx Hf. apply list_eq. intros j. destruct (decide (j = i)) as [->|Hne].
  - by rewrite list_lookup_alter_eq, Hx; simpl; rewrite Hf.
  - by rewrite list_lookup_alter_ne.
Qed.

Lemma handleEpisodeChange_current (i : nat) (field : EpisodeKey)
    (ep : Episode) (d : SheetData) :
  episodes d !! i = Some ep ->
  handleEpisodeChange i field
    (match field with key_from => from ep | key_text => text ep end) d
  = Some d.
Proof.
  intros Hep. rewrite handleEpisodeChange_alter.
  rewrite (alter_current _ _ _ ep); [by rewrite record_eta | done |].
  by destruct field, ep.
Qed.

(** C7.  Entering the value a field already has leaves the record equal to
    what it was, and the save effect still runs: exactly one [setItem] call
    is made, with the serialized record. *)
Theorem same_value_same_record_one_save (app : App) :
  well_formed app ->
  let saved calls app' :=
    data app' = data app
    ∧ count_calls is_SetItem calls = 1
    ∧ List.filter is_SetItem calls
      = [SetItemCall STORAGE_KEY (JSON_stringify (data app))] in
  (∀ i v, visions (data app) !! i = Some v ->
     ∃ calls app', step (VisionInput i v) app = Some (calls, app')
                   ∧ saved calls app')
  ∧ (∀ i v, engines (data app) !! i = Some v ->
       ∃ calls app', step (EngineInput i v) app = Some (calls, app')
                     ∧ saved calls app')
  ∧ (∃ calls app',
       step (SloganInput (engineSlogan (data app))) app = Some (calls, app')
       ∧ saved calls app')
  ∧ (∀ i ep, episodes (data app) !! i = Some ep ->
       (∃ calls app',
          step (EpisodeInput i key_from (from ep)) app = Some (calls, app')
          ∧ saved calls app')
       ∧ (∃ calls app',
            step (EpisodeInput i key_text (text ep)) app = Some (calls, app')
            ∧ saved calls app')).
Proof.
  intros Hwf saved.
  assert (Hstep : ∀ updater,
             updater (data app) = Some (data app) ->
             ∃ calls app', setData updater app = Some (calls, app')
                           ∧ saved calls app').
  { intros updater Hupd.
    destruct (setData_saves updater app (data app) Hwf Hupd)
      as (calls & app' & Hset & Hdata & _ & _ & Hcalls).
    exists calls, app'. split; [done|]. unfold saved, count_calls.
    by rewrite Hcalls. }
  repeat split.
  - intros i v Hv. apply Hstep. by apply handleVisionChange_current.
  - intros i v Hv. apply Hstep. by apply handleEngineChange_current.
  - apply Hstep. apply handleSloganChange_current.
  - apply Hstep. by apply (handleEpisodeChange_current i key_from).
  - apply Hstep. by apply (handleEpisodeChange_current i key_text).
Qed.

Lemma same_value_same_record_one_save_witness :
  well_formed freshApp
  ∧ (∃ calls app',
       step (VisionInput 0 []) freshApp = Some (calls, app')
       ∧ data app' = data freshApp
       ∧ count_calls is_SetItem calls = 1
       ∧ List.filter is_SetItem calls
         = [SetItemCall STORAGE_KEY (JSON_stringify (data freshApp))])
  ∧ (∃ calls app',
       step (SloganInput (engineSlogan (data freshApp))) freshApp
       = Some (calls, app')
       ∧ data app' = data freshApp
       ∧ count_calls is_SetItem calls = 1
       ∧ List.filter is_SetItem calls
         = [SetItemCall STORAGE_KEY (JSON_stringify (data freshApp))]).
Proof.
  assert (Hwf : well_formed freshApp) by (unfold well_formed; simpl; lia).
  split; [exact Hwf|].
  destruct (same_value_same_record_one_save freshApp Hwf)
    as (Hv & _ & Hs & _).
  split; [exact (Hv 0 [] eq_refl) | exact Hs].
Defined.

(** ** An over-long episode [from] *)

(** C8.  With every other field within its limit, after
    [handleEpisodeChange 2 "from" "12345678901"] validation reports
    [EpisodeFromTooLong], the episode at index 2 is the only one whose
    [from] is too long, and the alert raised is the one of the field group:
    it does not tell which episode. *)
Theorem from_too_long_at_2 (d : SheetData) (ep : Episode) :
  Forall (fun v => length v <= 30) (visions d) ->
  length (engineSlogan d) <= 30 ->
  Forall (fun e => length e <= 30) (engines d) ->
  Forall (fun ep' => length (text ep') <= 80) (episodes d) ->
  (∀ j ep', j ≠ 2 -> episodes d !! j = Some ep' -> length (from ep') <= 8) ->
  episodes d !! 2 = Some ep ->
  ∃ d', handleEpisodeChange 2 key_from elevenChars d = Some d'
    ∧ validate d' = Violated EpisodeFromTooLong
    ∧ (∀ j ep', episodes d' !! j = Some ep' ->
                (8 < length (from ep') ↔ j = 2))
    ∧ handlePrint d' = [Alert (alertMessage EpisodeFromTooLong)]
    ∧ ∀ i d'', handleEpisodeChange i key_from elevenChars d = Some d'' ->
               validate d'' = Violated EpisodeFromTooLong ->
               handlePrint d'' = handlePrint d'.
Proof.
  intros Hv Hs He Ht Hf Hep.
  eexists. split; [apply handleEpisodeChange_alter|].
  set (d' := {| visions := visions d; engineSlogan := engineSlogan d;
                engines := engines d;
                episodes := alter (set_field key_from elevenChars) 2
                                  (episodes d) |}).
  assert (Hwhich : ∀ j ep', episodes d' !! j = Some ep' ->
                            (8 < length (from ep') ↔ j = 2)).
  { intros j ep'. simpl. destruct (decide (j = 2)) as [->|Hne].
    - rewrite list_lookup_alter_eq, Hep. simpl. intros [= <-]. simpl.
      split; [done | intros _; vm_compute; lia].
    - rewrite list_lookup_alter_ne by done. intros Hj.
      specialize (Hf j ep' Hne Hj). lia. }
  assert (Hvalidate : validate d' = Violated EpisodeFromTooLong).
  { apply validate_first_violation.
    - simpl. apply Exists_exists.
      exists {| from := elevenChars; text := text ep |}. split.
      + apply list_elem_of_lookup. exists 2.
        by rewrite list_lookup_alter_eq, Hep.
      + vm_compute. lia.
    - intros [] Hlt; simpl in Hlt; try lia; simpl.
      + by apply (no_errors_Forall id).
      + lia.
      + by apply (no_errors_Forall id).
      + apply (no_errors_Forall text). apply Forall_lookup. intros j ep'.
        destruct (decide (j = 2)) as [->|Hne].
        * rewrite list_lookup_alter_eq, Hep. simpl. intros [= <-]. simpl.
          by eapply (Forall_lookup_1 _ _ _ _ Ht).
        * rewrite list_lookup_alter_ne by done.
          by apply (Forall_lookup_1 _ _ _ _ Ht). }
  split; [done|]. split; [done|]. split.
  - by rewrite handlePrint_validate, Hvalidate.
  - intros i d'' _ Hd''. by rewrite !handlePrint_validate, Hvalidate, Hd''.
Qed.

Lemma from_too_long_at_2_witness :
  ∃ d', handleEpisodeChange 2 key_from elevenChars defaultData = Some d'
    ∧ validate d' = Violated EpisodeFromTooLong
    ∧ (∀ j ep', episodes d' !! j = Some ep' ->
                (8 < length (from ep') ↔ j = 2))
    ∧ handlePrint d' = [Alert (alertMessage EpisodeFromTooLong)]
    ∧ ∀ i d'', handleEpisodeChange i key_from elevenChars defaultData
               = Some d'' ->
               validate d'' = Violated EpisodeFromTooLong ->
               handlePrint d'' = handlePrint d'.
Proof.
  apply (from_too_long_at_2 defaultData {| from := []; text := [] |}).
  - repeat constructor; simpl; lia.
  - simpl; lia.
  - repeat constructor; simpl; lia.
  - repeat constructor; simpl; lia.
  - intros j ep' _ Hj.
    repeat (destruct j as [|j]; simpl in Hj;
            [injection Hj as <-; simpl; lia|]).
    discriminate.
  - reflexivity.
Defined.

(** The violation reported does not refer to an episode: no reading of the
    calls [handlePrint] makes gives back the index, since an over-long
    [from] at index 2 and one at index 3 raise the same alert. *)
Lemma alert_names_no_episode_index :
  ¬ ∃ referenced : list Call -> nat,
      ∀ i d', i < 6 ->
        handleEpisodeChange i key_from elevenChars defaultData = Some d' ->
        referenced (handlePrint d') = i.
Proof.
  intros [referenced Href].
  pose proof (Href 2 _ ltac:(lia) eq_refl) as H2.
  pose proof (Href 3 _ ltac:(lia) eq_refl) as H3.
  vm_compute in H2, H3. congruence.
Qed.

(** ** Font size of an episode text *)



(** ** Loading *)

Lemma lookup_prop_Some_shape (v : json) (name : jsstring) (x : json) :
  get_prop v name = Some x -> ∃ props, v = JObject props.
Proof. destruct v; simpl; try discriminate. eauto. Qed.

(** The condition tested by the loader is the shape the specification asks
    for; the leading truthiness test adds nothing to it. *)
Lemma shape_check_spec (v : json) : shape_check v = true ↔ spec_shape v.
Proof.
  unfold shape_check, spec_shape. split.
  - rewrite !andb_true_iff. intros ((((_ & H1) & H2) & H3) & H4).
    destruct (get_prop v (js "visions")) as [[]|]; try discriminate.
    destruct (get_prop v (js "engineSlogan")) as [[]|]; try discriminate.
    destruct (get_prop v (js "engines")) as [[]|]; try discriminate.
    destruct (get_prop v (js "episodes")) as [[]|]; try discriminate.
    eauto 10.
  - intros ([l1 H1] & [s H2] & [l2 H3] & [l3 H4]).
    destruct (lookup_prop_Some_shape _ _ _ H1) as [props ->].
    by rewrite H1, H2, H3, H4.
Qed.

Lemma JSON_parse_nonempty (stored : jsstring) (v : json) :
  JSON_parse stored = Normal v -> stored ≠ [].
Proof. by intros H ->. Qed.

(** A stored text that parses to a value of the right shape is returned as
    parsed. *)
Lemma load_returns_parsed (st : Storage) (stored : jsstring) (parsed : json) :
  getItem STORAGE_KEY st = Some stored ->
  JSON_parse stored = Normal parsed ->
  spec_shape parsed ->
  loadDataFromStorage st = ([], Some parsed) ∧ initialData st = parsed.
Proof.
  intros Hget Hparse Hshape.
  assert (Hload : loadDataFromStorage st = ([], Some parsed)).
  { unfold loadDataFromStorage, load_try. rewrite Hget.
    rewrite bool_decide_true by by eapply JSON_parse_nonempty.
    rewrite Hparse. simpl.
    by rewrite (proj2 (shape_check_spec parsed) Hshape). }
  split; [done|]. unfold initialData. rewrite Hload. simpl.
  destruct Hshape as ([l Hl] & _).
  by destruct (lookup_prop_Some_shape _ _ _ Hl) as [props ->].
Qed.

Lemma load_absent_initial (st : Storage) :
  (loadDataFromStorage st).2 = None -> initialData st = toJS defaultData.
Proof. unfold initialData. by intros ->. Qed.

Lemma defaultData_empty : allEmpty defaultData ∧ fixed_shape defaultData.
Proof. split; [repeat split; by repeat constructor | by repeat split]. Qed.

(** C3.  [loadDataFromStorage] returns [null] when the key is unset, when
    the stored text does not parse, and when the parsed value lacks the
    shape; so it does for the stored text [not json].  The state then
    starts from the default record, whose fields are all empty and which
    has 3 visions, 3 engines and 6 episodes. *)
Theorem load_absent_then_default (st : Storage) :
  getItem STORAGE_KEY st = None
  ∨ (∃ stored e, getItem STORAGE_KEY st = Some stored
                 ∧ JSON_parse stored = Throw e)
  ∨ (∃ stored parsed, getItem STORAGE_KEY st = Some stored
                      ∧ JSON_parse stored = Normal parsed
                      ∧ ¬ spec_shape parsed)
  ∨ getItem STORAGE_KEY st = Some (js "not json") ->
  (loadDataFromStorage st).2 = None
  ∧ initialData st = toJS defaultData
  ∧ allEmpty defaultData
  ∧ fixed_shape defaultData.
Proof.
  intros Hcase.
  assert (Hnone : (loadDataFromStorage st).2 = None).
  { unfold loadDataFromStorage, load_try.
    destruct Hcase as [->|[(stored & e & -> & Hthrow)|
                          [(stored & parsed & -> & Hparse & Hshape)| ->]]].
    - done.
    - case_bool_decide; [|done]. by rewrite Hthrow.
    - case_bool_decide; [|done]. rewrite Hparse. simpl.
      destruct (shape_check parsed) eqn:Hc; [|done].
      by apply shape_check_spec in Hc.
    - done. }
  split; [done|]. split; [by apply load_absent_initial|].
  apply defaultData_empty.
Qed.

Lemma load_absent_then_default_witness :
  getItem STORAGE_KEY notJsonStore = Some (js "not json")
  ∧ (loadDataFromStorage notJsonStore).2 = None
  ∧ initialData notJsonStore = toJS defaultData
  ∧ allEmpty defaultData
  ∧ fixed_shape defaultData.
Proof.
  assert (Hget : getItem STORAGE_KEY notJsonStore = Some (js "not json"))
    by (vm_compute; reflexivity).
  split; [exact Hget|].
  apply (load_absent_then_default notJsonStore).
  right; right; right. exact Hget.
Defined.

(** ** What the loader does not check *)

(** C10.  The loader tests that the three sequences are arrays and the
    slogan a string, not how long the arrays are nor what they hold: a
    stored value with one vision, a number, no engine and one episode,
    [null], is returned as it is and becomes the initial state, though no
    record of 3 visions, 3 engines and 6 episodes has that value. *)
Theorem load_checks_containers_only :
  ∃ st parsed vs es ps,
    (loadDataFromStorage st).2 = Some parsed
    ∧ initialData st = parsed
    ∧ get_prop parsed (js "visions") = Some (JArray vs)
    ∧ get_prop parsed (js "engines") = Some (JArray es)
    ∧ get_prop parsed (js "episodes") = Some (JArray ps)
    ∧ length vs ≠ 3 ∧ length es ≠ 3 ∧ length ps ≠ 6
    ∧ (∃ x, x ∈ vs ∧ ∀ s, x ≠ JString s)
    ∧ (∀ d, parsed = toJS d -> ¬ fixed_shape d).
Proof.
  exists oddStore, oddValue, [JNumber (js "1")], [], [JNull].
  assert (Hget : getItem STORAGE_KEY oddStore = Some oddBlob)
    by (vm_compute; reflexivity).
  assert (Hparse : JSON_parse oddBlob = Normal oddValue)
    by (vm_compute; reflexivity).
  assert (Hshape : spec_shape oddValue).
  { apply shape_check_spec. vm_compute. reflexivity. }
  destruct (load_returns_parsed oddStore oddBlob oddValue Hget Hparse Hshape)
    as [Hload Hinit].
  rewrite Hload, Hinit. simpl.
  repeat split; try done.
  - exists (JNumber (js "1")). split; [by apply list_elem_of_here | done].
  - intros d Hd (Hv & _). injection Hd as Hvis _ _ _.
    apply (f_equal length) in Hvis. rewrite length_fmap in Hvis.
    simpl in Hvis. lia.
Qed.

(** ** Reading back what was written *)

(** *** String literals *)

Lemma hex_value_digit (d : N) : (d < 16)%N -> hex_value (hex_digit d) = Some d.
Proof.
  intros Hd.
  assert (d = 0 ∨ d = 1 ∨ d = 2 ∨ d = 3 ∨ d = 4 ∨ d = 5 ∨ d = 6 ∨ d = 7
          ∨ d = 8 ∨ d = 9 ∨ d = 10 ∨ d = 11 ∨ d = 12 ∨ d = 13 ∨ d = 14
          ∨ d = 15)%N as Hcases by lia.
  repeat (destruct Hcases as [->|Hcases]; [reflexivity|]).
  by subst.
Qed.

Lemma hex4_digits (c : N) :
  (c < 65536)%N ->
  hex4 (hex_digit (c / 4096)) (hex_digit ((c / 256) mod 16))
       (hex_digit ((c / 16) mod 16)) (hex_digit (c mod 16)) = Some c.
Proof.
  intros Hc. unfold hex4.
  rewrite !hex_value_digit.
  - f_equal. zify. Z.to_euclidean_division_equations. lia.
  - by apply N.mod_lt.
  - by apply N.mod_lt.
  - by apply N.mod_lt.
  - apply N.Div0.div_lt_upper_bound. lia.
Qed.

Lemma parse_chars_escape_u (h1 h2 h3 h4 : N) (r : jsstring) :
  parse_chars (BACKSLASH :: 117%N :: h1 :: h2 :: h3 :: h4 :: r) =
  match hex4 h1 h2 h3 h4 with
  | Some u =>
      match parse_chars r with
      | Some (t, rest) => Some (u :: t, rest)
      | None => None
      end
  | None => None
  end.
Proof. reflexivity. Qed.

Lemma parse_chars_literal (c : N) (r : jsstring) :
  c ≠ QUOTE -> c ≠ BACKSLASH -> (32 <= c)%N ->
  parse_chars (c :: r) =
  match parse_chars r with
  | Some (t, rest) => Some (c :: t, rest)
  | None => None
  end.
Proof.
  intros Hq Hb Hc. simpl.
  rewrite (proj2 (N.eqb_neq c QUOTE)), (proj2 (N.eqb_neq c BACKSLASH)) by done.
  by rewrite (proj2 (N.ltb_ge c 32)).
Qed.

Lemma surrogate_bounds (c : N) :
  is_lead c || is_trail c = true -> (55296 <= c < 57344)%N.
Proof.
  unfold is_lead, is_trail.
  rewrite orb_true_iff, !andb_true_iff, !N.leb_le. lia.
Qed.

(** Reading one escaped or copied code unit gives the unit back. *)
Lemma parse_chars_quote_unit (c : N) (r : jsstring) :
  parse_chars (quote_unit c ++ r) =
  match parse_chars r with
  | Some (t, rest) => Some (c :: t, rest)
  | None => None
  end.
Proof.
  unfold quote_unit.
  destruct (N.eqb_spec c 8) as [->|H8]; [reflexivity|].
  destruct (N.eqb_spec c 9) as [->|H9]; [reflexivity|].
  destruct (N.eqb_spec c 10) as [->|H10]; [reflexivity|].
  destruct (N.eqb_spec c 12) as [->|H12]; [reflexivity|].
  destruct (N.eqb_spec c 13) as [->|H13]; [reflexivity|].
  destruct (N.eqb_spec c QUOTE) as [->|Hq]; [reflexivity|].
  destruct (N.eqb_spec c BACKSLASH) as [->|Hb]; [reflexivity|].
  destruct (N.ltb_spec c 32) as [Hlow|Hhigh]; simpl orb.
  - unfold UnicodeEscape.
    change (parse_chars
              (BACKSLASH :: 117%N :: hex_digit (c / 4096)
               :: hex_digit ((c / 256) mod 16) :: hex_digit ((c / 16) mod 16)
               :: hex_digit (c mod 16) :: r) = 
            match parse_chars r with
            | Some (t, rest) => Some (c :: t, rest)
            | None => None
            end).
    rewrite parse_chars_escape_u, hex4_digits by lia. done.
  - destruct (is_lead c || is_trail c) eqn:Hsur.
    + apply surrogate_bounds in Hsur. unfold UnicodeEscape.
      change (parse_chars
                (BACKSLASH :: 117%N :: hex_digit (c / 4096)
                 :: hex_digit ((c / 256) mod 16) :: hex_digit ((c / 16) mod 16)
                 :: hex_digit (c mod 16) :: r) = 
              match parse_chars r with
              | Some (t, rest) => Some (c :: t, rest)
              | None => None
              end).
      rewrite parse_chars_escape_u, hex4_digits by lia. done.
    + by apply parse_chars_literal.
Qed.

Lemma parse_chars_pair (c d : N) (r : jsstring) :
  is_lead c && is_trail d = true ->
  parse_chars (c :: d :: r) =
  match parse_chars r with
  | Some (t, rest) => Some (c :: d :: t, rest)
  | None => None
  end.
Proof.
  unfold is_lead, is_trail. rewrite !andb_true_iff, !N.leb_le.
  intros [[? ?] [? ?]]. unfold QUOTE, BACKSLASH.
  rewrite (parse_chars_literal c), (parse_chars_literal d)
    by (unfold QUOTE, BACKSLASH; lia).
  by destruct (parse_chars r) as [[t rest]|].
Qed.

Lemma quote_units_cons2 (c d : N) (r : jsstring) :
  quote_units (c :: d :: r) =
  if is_lead c && is_trail d then c :: d :: quote_units r
  else quote_unit c ++ quote_units (d :: r).
Proof. reflexivity. Qed.

Lemma parse_chars_quote_units (s rest : jsstring) :
  parse_chars (quote_units s ++ QUOTE :: rest) = Some (s, rest).
Proof.
  remember (length s) as n eqn:Hn.
  assert (Hlen : length s <= n) by lia. clear Hn.
  revert s Hlen. induction n as [|n IH]; intros s Hlen.
  - by destruct s; [|simpl in Hlen; lia].
  - destruct s as [|c [|d r]]; [done| |].
    + simpl quote_units. by rewrite parse_chars_quote_unit.
    + rewrite quote_units_cons2. simpl in Hlen.
      destruct (is_lead c && is_trail d) eqn:Hpair.
      * change ((c :: d :: quote_units r) ++ QUOTE :: rest)
          with (c :: d :: (quote_units r ++ QUOTE :: rest)).
        rewrite parse_chars_pair, IH by (done || lia). done.
      * rewrite <-app_assoc, parse_chars_quote_unit.
        by rewrite (IH (d :: r)) by (simpl; lia).
Qed.

(** *** Values *)

Lemma parses_as_mono (n m : nat) (txt : jsstring) (v : json) :
  parses_as n txt v -> n <= m -> parses_as m txt v.
Proof. intros H Hnm f rest Hf. apply H. lia. Qed.

Lemma parse_value_quote (f : nat) (r : jsstring) :
  parse_value (S f) (QUOTE :: r) =
  match parse_chars r with
  | Some (str, rest) => Some (JString str, rest)
  | None => None
  end.
Proof. reflexivity. Qed.

Lemma QuoteJSONString_app (s rest : jsstring) :
  QuoteJSONString s ++ rest = QUOTE :: quote_units s ++ QUOTE :: rest.
Proof. unfold QuoteJSONString. simpl. by rewrite <-app_assoc. Qed.

Lemma parses_as_string (s : jsstring) :
  parses_as 1 (QuoteJSONString s) (JString s).
Proof.
  intros [|f] rest Hf; [lia|].
  by rewrite QuoteJSONString_app, parse_value_quote, parse_chars_quote_units.
Qed.

Lemma parse_elements_S (f : nat) (s : jsstring) (acc : list json) :
  parse_elements (S f) s acc =
  match parse_value f s with
  | None => None
  | Some (v, r) =>
      match skip_ws r with
      | [] => None
      | c :: r' =>
          if (c =? COMMA)%N then parse_elements f r' (acc ++ [v])
          else if (c =? RBRACKET)%N then Some (JArray (acc ++ [v]), r')
          else None
      end
  end.
Proof. reflexivity. Qed.

Lemma parse_value_bracket (f : nat) (c : N) (r : jsstring) :
  is_ws c = false -> (c =? RBRACKET)%N = false ->
  parse_value (S f) (LBRACKET :: c :: r) = parse_elements f (c :: r) [].
Proof. intros Hws Hc. simpl. by rewrite Hws, Hc. Qed.

Lemma parse_value_brace_quote (f : nat) (r : jsstring) :
  parse_value (S f) (LBRACE :: QUOTE :: r) = parse_members f (QUOTE :: r) [].
Proof. reflexivity. Qed.

Lemma parse_members_S_quote (f : nat) (r : jsstring)
    (acc : list (jsstring * json)) :
  parse_members (S f) (QUOTE :: r) acc =
  match parse_chars r with
  | None => None
  | Some (k, r1) =>
      match skip_ws r1 with
      | [] => None
      | c1 :: r2 =>
          if (c1 =? COLON)%N then
            match parse_value f r2 with
            | None => None
            | Some (v, r3) =>
                match skip_ws r3 with
                | [] => None
                | c3 :: r4 =>
                    if (c3 =? COMMA)%N then
                      parse_members f r4 (define_prop k v acc)
                    else if (c3 =? RBRACE)%N then
                      Some (JObject (define_prop k v acc), r4)
                    else None
                end
            end
          else None
      end
  end.
Proof. reflexivity. Qed.

Lemma parse_elements_more (f : nat) (s r : jsstring) (v : json)
    (acc : list json) :
  parse_value f s = Some (v, COMMA :: r) ->
  parse_elements (S f) s acc = parse_elements f r (acc ++ [v]).
Proof. intros H. by rewrite parse_elements_S, H. Qed.

Lemma parse_elements_last (f : nat) (s r : jsstring) (v : json)
    (acc : list json) :
  parse_value f s = Some (v, RBRACKET :: r) ->
  parse_elements (S f) s acc = Some (JArray (acc ++ [v]), r).
Proof. intros H. by rewrite parse_elements_S, H. Qed.

Lemma parse_members_more (f : nat) (k txt r : jsstring) (v : json)
    (acc : list (jsstring * json)) :
  parse_value f txt = Some (v, COMMA :: r) ->
  parse_members (S f) (QuoteJSONString k ++ COLON :: txt) acc
  = parse_members f r (define_prop k v acc).
Proof.
  intros H.
  rewrite QuoteJSONString_app, parse_members_S_quote, parse_chars_quote_units.
  change (skip_ws (COLON :: txt)) with (COLON :: txt).
  change (COLON =? COLON)%N with true. cbv iota. by rewrite H.
Qed.

Lemma parse_members_last (f : nat) (k txt r : jsstring) (v : json)
    (acc : list (jsstring * json)) :
  parse_value f txt = Some (v, RBRACE :: r) ->
  parse_members (S f) (QuoteJSONString k ++ COLON :: txt) acc
  = Some (JObject (define_prop k v acc), r).
Proof.
  intros H.
  rewrite QuoteJSONString_app, parse_members_S_quote, parse_chars_quote_units.
  change (skip_ws (COLON :: txt)) with (COLON :: txt).
  change (COLON =? COLON)%N with true. cbv iota. by rewrite H.
Qed.

Lemma join_comma_cons2 (p q : jsstring) (ps : list jsstring) :
  join_comma (p :: q :: ps) = p ++ COMMA :: join_comma (q :: ps).
Proof. reflexivity. Qed.

(** *** Arrays *)

Section arrays.
Context {A : Type} (print : A -> jsstring) (val : A -> json) (need : nat).
Hypothesis print_head :
  ∀ a, ∃ c r, print a = c :: r ∧ is_ws c = false ∧ (c =? RBRACKET)%N = false.
Hypothesis parse_print : ∀ a, parses_as need (print a) (val a).

Lemma parse_elements_join (l : list A) :
  ∀ a acc rest f,
    need + S (length l) <= f ->
    parse_elements f (join_comma (print <$> a :: l) ++ RBRACKET :: rest) acc
    = Some (JArray (acc ++ (val <$> a :: l)), rest).
Proof.
  induction l as [|b l IH]; intros a acc rest [|f] Hf; simpl in Hf; try lia.
  - change (join_comma (print <$> [a])) with (print a).
    apply parse_elements_last, parse_print. lia.
  - change (join_comma (print <$> a :: b :: l))
      with (print a ++ COMMA :: join_comma (print <$> b :: l)).
    rewrite <-app_assoc.
    change ((COMMA :: join_comma (print <$> b :: l)) ++ RBRACKET :: rest)
      with (COMMA :: (join_comma (print <$> b :: l) ++ RBRACKET :: rest)).
    erewrite parse_elements_more by (apply parse_print; lia).
    rewrite IH by lia. by rewrite <-app_assoc.
Qed.

Lemma parses_as_array (l : list A) :
  parses_as (need + 2 + length l) (SerializeJSONArray (print <$> l))
            (JArray (val <$> l)).
Proof.
  intros [|f] rest Hf; [lia|]. destruct l as [|a l].
  - reflexivity.
  - unfold SerializeJSONArray.
    change ((LBRACKET :: join_comma (print <$> a :: l) ++ [RBRACKET]) ++ rest)
      with (LBRACKET :: (join_comma (print <$> a :: l) ++ [RBRACKET]) ++ rest).
    rewrite <-app_assoc. simpl ([RBRACKET] ++ rest).
    destruct (print_head a) as (c & r & Hpr & Hws & Hc).
    assert (Hjoin : ∃ r', join_comma (print <$> a :: l) = c :: r').
    { destruct l; simpl; rewrite Hpr; simpl; eauto. }
    destruct Hjoin as [r' Hr']. rewrite Hr'.
    change ((c :: r') ++ RBRACKET :: rest) with (c :: (r' ++ RBRACKET :: rest)).
    rewrite parse_value_bracket by done.
    change (c :: (r' ++ RBRACKET :: rest)) with ((c :: r') ++ RBRACKET :: rest).
    rewrite <-Hr'. rewrite parse_elements_join by (simpl in Hf; lia). done.
Qed.
End arrays.

Lemma parses_as_string_array (l : list jsstring) :
  parses_as (3 + length l) (SerializeJSONArray (QuoteJSONString <$> l))
            (JArray (JString <$> l)).
Proof.
  apply (parses_as_array QuoteJSONString JString 1).
  - intros s. exists QUOTE, (quote_units s ++ [QUOTE]). by repeat split.
  - apply parses_as_string.
Qed.

(** *** Objects *)

Lemma member_app (k txt rest : jsstring) :
  member (k, txt) ++ rest = QuoteJSONString k ++ COLON :: (txt ++ rest).
Proof. unfold member. simpl. by rewrite <-app_assoc. Qed.

Lemma parse_members_join (need : nat) (fds : list field) :
  ∀ fd acc rest f,
    Forall (fun fd => parses_as need fd.1.2 fd.2) (fd :: fds) ->
    need + S (length fds) <= f ->
    parse_members f
      (join_comma (member <$> (printed <$> fd :: fds)) ++ RBRACE :: rest) acc
    = Some (JObject (defined (fd :: fds) acc), rest).
Proof.
  induction fds as [|fd' fds IH];
    intros [[k txt] v] acc rest [|f] Hall Hf; simpl in Hf; try lia.
  - change (join_comma (member <$> (printed <$> [(k, txt, v)])))
      with (member (k, txt)).
    rewrite member_app. apply parse_members_last.
    apply Forall_cons_1 in Hall as [Hp _]. apply Hp. lia.
  - change (join_comma (member <$> (printed <$> (k, txt, v) :: fd' :: fds)))
      with (member (k, txt)
            ++ COMMA :: join_comma (member <$> (printed <$> fd' :: fds))).
    rewrite <-app_assoc, member_app.
    apply Forall_cons_1 in Hall as [Hp Hall].
    erewrite parse_members_more; [|apply Hp; lia].
    rewrite IH by (done || lia). done.
Qed.

Lemma parses_as_object (need : nat) (fds : list field) :
  Forall (fun fd => parses_as need fd.1.2 fd.2) fds ->
  parses_as (need + 2 + length fds) (SerializeJSONObject (printed <$> fds))
            (JObject (defined fds [])).
Proof.
  intros Hall [|f] rest Hf; [lia|]. destruct fds as [|[[k txt] v] fds].
  - reflexivity.
  - unfold SerializeJSONObject.
    change ((LBRACE :: ?j ++ [RBRACE]) ++ rest)
      with (LBRACE :: (j ++ [RBRACE]) ++ rest).
    rewrite <-app_assoc. simpl ([RBRACE] ++ rest).
    match goal with
    | |- parse_value _ (LBRACE :: ?j ++ _) = _ =>
        assert (Hjoin : ∃ r', j = QUOTE :: r')
          by (destruct fds; simpl; eauto);
        destruct Hjoin as [r' Hr']; rewrite Hr'
    end.
    change ((QUOTE :: r') ++ RBRACE :: rest)
      with (QUOTE :: (r' ++ RBRACE :: rest)).
    rewrite parse_value_brace_quote.
    change (QUOTE :: (r' ++ RBRACE :: rest))
      with ((QUOTE :: r') ++ RBRACE :: rest).
    rewrite <-Hr'. apply (parse_members_join need); [done | simpl in Hf; lia].
Qed.

(** *** Episodes and the record *)

Lemma parses_as_Episode (ep : Episode) :
  parses_as 5 (stringify_Episode ep) (toJS_Episode ep).
Proof.
  apply (parses_as_object 1
           [(js "from", QuoteJSONString (from ep), JString (from ep));
            (js "text", QuoteJSONString (text ep), JString (text ep))]).
  repeat constructor; apply parses_as_string.
Qed.

Lemma parses_as_Episode_array (l : list Episode) :
  parses_as (7 + length l) (SerializeJSONArray (stringify_Episode <$> l))
            (JArray (toJS_Episode <$> l)).
Proof.
  apply (parses_as_array stringify_Episode toJS_Episode 5).
  - intros ep. eexists LBRACE, _. by repeat split.
  - apply parses_as_Episode.
Qed.

Lemma parses_as_SheetData (d : SheetData) :
  parses_as (fuel_for d) (JSON_stringify d) (toJS d).
Proof.
  set (need := 7 + length (visions d) + length (engines d)
               + length (episodes d)).
  apply (parses_as_mono (need + 2 + 4)); [|unfold need, fuel_for; lia].
  apply (parses_as_object need
           [(js "visions",
             SerializeJSONArray (QuoteJSONString <$> visions d),
             JArray (JString <$> visions d));
            (js "engineSlogan", QuoteJSONString (engineSlogan d),
             JString (engineSlogan d));
            (js "engines",
             SerializeJSONArray (QuoteJSONString <$> engines d),
             JArray (JString <$> engines d));
            (js "episodes",
             SerializeJSONArray (stringify_Episode <$> episodes d),
             JArray (toJS_Episode <$> episodes d))]).
  repeat constructor; simpl.
  - eapply parses_as_mono; [apply parses_as_string_array | unfold need; lia].
  - eapply parses_as_mono; [apply parses_as_string | unfold need; lia].
  - eapply parses_as_mono; [apply parses_as_string_array | unfold need; lia].
  - eapply parses_as_mono; [apply parses_as_Episode_array | unfold need; lia].
Qed.

(** *** Fuel

    Each parser takes its result from the front of the text, and succeeds
    with any fuel above the number of characters it takes.  So the fuel
    [JSON_parse] gives, one more than the length of the text, never is what
    makes a text fail. *)

Lemma skip_ws_length (s : jsstring) : length (skip_ws s) <= length s.
Proof.
  induction s as [|c s IH]; simpl; [lia|].
  destruct (is_ws c); simpl; lia.
Qed.

Lemma parse_chars_length (s t rest : jsstring) :
  parse_chars s = Some (t, rest) -> length rest < length s.
Proof.
  remember (length s) as n eqn:Hn.
  assert (Hlen : length s <= n) by lia. clear Hn.
  revert s t rest Hlen. induction n as [|n IH]; intros s t rest Hlen H.
  - destruct s; [discriminate | simpl in Hlen; lia].
  - destruct s as [|c r]; [discriminate|]. simpl in H, Hlen.
    repeat (match type of H with
            | context [match ?x with _ => _ end] => destruct x eqn:?
            end; try discriminate);
      simplify_eq; simpl in *;
      repeat match goal with
             | E : parse_chars _ = Some _ |- _ =>
                 apply IH in E; [|simpl in *; lia]
             end; simpl in *; lia.
Qed.

Lemma strip_prefix_length (w s rest : jsstring) :
  strip_prefix w s = Some rest -> length rest <= length s.
Proof.
  revert s. induction w as [|a w IH]; intros [|b s] H; simpl in H;
    simplify_eq; simpl; try lia.
  destruct (a =? b)%N; [|discriminate]. apply IH in H. lia.
Qed.

Lemma take_digits_length (s : jsstring) :
  length (take_digits s).2 <= length s.
Proof.
  induction s as [|c s IH]; simpl; [lia|].
  destruct (is_digit c); simpl; [|lia].
  destruct (take_digits s); simpl in *. lia.
Qed.

Lemma parse_number_length (s l rest : jsstring) :
  parse_number s = Some (l, rest) -> length rest <= length s.
Proof.
  unfold parse_number. intros H.
  repeat (match goal with
          | H : context [match take_digits ?x with _ => _ end] |- _ =>
              pose proof (take_digits_length x);
              destruct (take_digits x) eqn:?
          | H : context [match ?x with _ => _ end] |- _ => destruct x eqn:?
          | H : context [if ?x then _ else _] |- _ => destruct x eqn:?
          end; try discriminate; simplify_eq; simpl in *);
    rewrite ?length_app in *; simpl in *; lia.
Qed.

Lemma parse_value_S (f : nat) (s : jsstring) :
  parse_value (S f) s =
      match skip_ws s with
      | [] => None
      | c :: r =>
          if (c =? LBRACE)%N then
            match skip_ws r with
            | [] => None
            | c' :: r' =>
                if (c' =? RBRACE)%N then Some (JObject [], r')
                else parse_members f (c' :: r') []
            end
          else if (c =? LBRACKET)%N then
            match skip_ws r with
            | [] => None
            | c' :: r' =>
                if (c' =? RBRACKET)%N then Some (JArray [], r')
                else parse_elements f (c' :: r') []
            end
          else if (c =? QUOTE)%N then
            match parse_chars r with
            | Some (str, rest) => Some (JString str, rest)
            | None => None
            end
          else
            match strip_prefix (js "null") (c :: r) with
            | Some rest => Some (JNull, rest)
            | None =>
            match strip_prefix (js "true") (c :: r) with
            | Some rest => Some (JBool true, rest)
            | None =>
            match strip_prefix (js "false") (c :: r) with
            | Some rest => Some (JBool false, rest)
            | None =>
            match parse_number (c :: r) with
            | Some (lexeme, rest) => Some (JNumber lexeme, rest)
            | None => None
            end end end end
      end.
Proof. reflexivity. Qed.

Lemma parse_members_S (f : nat) (s : jsstring) (acc : list (jsstring * json)) :
  parse_members (S f) s acc =
      match skip_ws s with
      | [] => None
      | c :: r =>
          if (c =? QUOTE)%N then
            match parse_chars r with
            | None => None
            | Some (k, r1) =>
                match skip_ws r1 with
                | [] => None
                | c1 :: r2 =>
                    if (c1 =? COLON)%N then
                      match parse_value f r2 with
                      | None => None
                      | Some (v, r3) =>
                          match skip_ws r3 with
                          | [] => None
                          | c3 :: r4 =>
                              if (c3 =? COMMA)%N then
                                parse_members f r4 (define_prop k v acc)
                              else if (c3 =? RBRACE)%N then
                                Some (JObject (define_prop k v acc), r4)
                              else None
                          end
                      end
                    else None
                end
            end
          else None
      end.
Proof. reflexivity. Qed.

(** Take apart every [match] of the hypothesis [H]. *)
Ltac cases_of H :=
  repeat (match type of H with
          | context [match ?x with _ => _ end] => destruct x eqn:?
          end; try discriminate).

(** What the equations in the context say about lengths. *)
Ltac length_facts :=
  repeat match goal with
    | E : skip_ws ?x = ?y |- _ =>
        lazymatch goal with
        | _ : length y <= length x |- _ => fail
        | _ => assert (length y <= length x)
                 by (rewrite <-E; apply skip_ws_length)
        end
    | E : parse_chars ?x = Some (_, ?y) |- _ =>
        lazymatch goal with
        | _ : length y < length x |- _ => fail
        | _ => assert (length y < length x)
                 by (eapply parse_chars_length, E)
        end
    | E : strip_prefix _ ?x = Some ?y |- _ =>
        lazymatch goal with
        | _ : length y <= length x |- _ => fail
        | _ => assert (length y <= length x)
                 by (eapply strip_prefix_length, E)
        end
    | E : parse_number ?x = Some (_, ?y) |- _ =>
        lazymatch goal with
        | _ : length y <= length x |- _ => fail
        | _ => assert (length y <= length x)
                 by (eapply parse_number_length, E)
        end
    end.

(** Replay the equations of the context in the goal. *)
Ltac replay :=
  repeat (match goal with
          | E : ?x = _ |- context [match ?x with _ => _ end] => rewrite E
          | F : ∀ f', _ -> parse_value f' ?s = _
            |- context [parse_value ?f ?s] =>
              rewrite (F f) by (simpl in *; lia)
          | F : ∀ f', _ -> parse_elements f' ?s ?a = _
            |- context [parse_elements ?f ?s ?a] =>
              rewrite (F f) by (simpl in *; lia)
          | F : ∀ f', _ -> parse_members f' ?s ?a = _
            |- context [parse_members ?f ?s ?a] =>
              rewrite (F f) by (simpl in *; lia)
          end; cbv beta iota).

Lemma parse_fuel (f : nat) :
  enough_fuel (fun f s (_ : unit) => parse_value f s) f
  ∧ enough_fuel parse_elements f
  ∧ enough_fuel parse_members f.
Proof.
  induction f as [|f (IHv & IHe & IHm)]; [by repeat split|].
  unfold enough_fuel in *.
  assert (Hv : ∀ s v rest, parse_value f s = Some (v, rest) ->
               length rest <= length s
               ∧ ∀ f', length s - length rest < f' ->
                       parse_value f' s = Some (v, rest))
    by (intros s; apply (IHv s ())).
  clear IHv.
  split; [|split]; intros s a v rest H.
  - rewrite parse_value_S in H. cases_of H; simplify_eq; length_facts;
      repeat match goal with
        | E : parse_elements f _ _ = Some _ |- _ => apply IHe in E as [? ?]
        | E : parse_members f _ _ = Some _ |- _ => apply IHm in E as [? ?]
        end;
      (split; [simpl in *; lia|]);
      intros [|f'] Hf'; try (simpl in *; lia);
      rewrite parse_value_S; replay; reflexivity.
  - rewrite parse_elements_S in H. cases_of H; simplify_eq; length_facts;
      repeat match goal with
        | E : parse_value f _ = Some _ |- _ => apply Hv in E as [? ?]
        | E : parse_elements f _ _ = Some _ |- _ => apply IHe in E as [? ?]
        end;
      (split; [simpl in *; lia|]);
      intros [|f'] Hf'; try (simpl in *; lia);
      rewrite parse_elements_S; replay; reflexivity.
  - rewrite parse_members_S in H. cases_of H; simplify_eq; length_facts;
      repeat match goal with
        | E : parse_value f _ = Some _ |- _ => apply Hv in E as [? ?]
        | E : parse_members f _ _ = Some _ |- _ => apply IHm in E as [? ?]
        end;
      (split; [simpl in *; lia|]);
      intros [|f'] Hf'; try (simpl in *; lia);
      rewrite parse_members_S; replay; reflexivity.
Qed.

Lemma JSON_parse_any_fuel (text : jsstring) (f : nat) (v : json)
    (rest : jsstring) :
  parse_value f text = Some (v, rest) -> skip_ws rest = [] ->
  JSON_parse text = Normal v.
Proof.
  intros H Hrest. unfold JSON_parse.
  destruct (parse_fuel f) as (Hv & _ & _).
  destruct (Hv text () v rest H) as [_ Hfuel].
  rewrite (Hfuel (S (length text))) by lia. by rewrite Hrest.
Qed.

(** A text that [JSON_parse] rejects is rejected with any fuel. *)
Lemma JSON_parse_throw_any_fuel (text : jsstring) (e : exn) (f : nat)
    (v : json) (rest : jsstring) :
  JSON_parse text = Throw e ->
  parse_value f text = Some (v, rest) -> skip_ws rest ≠ [].
Proof.
  intros Hthrow Hparse Hrest.
  by rewrite (JSON_parse_any_fuel text f v rest Hparse Hrest) in Hthrow.
Qed.

(** *** Save, then load *)

Lemma JSON_parse_stringify (d : SheetData) :
  JSON_parse (JSON_stringify d) = Normal (toJS d).
Proof.
  apply (JSON_parse_any_fuel _ (fuel_for d) _ []); [|done].
  rewrite <-(app_nil_r (JSON_stringify d)) at 1.
  by apply parses_as_SheetData.
Qed.

Lemma toJS_shape (d : SheetData) : spec_shape (toJS d).
Proof. unfold spec_shape. simpl. eauto 10. Qed.

(** C4.  When [setItem] takes the write, loading after
    saving a record gives the value of that record, whatever was stored
    before.  When [setItem] throws, which the save effect only logs, the
    store is as it was. *)
Theorem load_after_save (d : SheetData) (st : Storage) :
  (∀ st', setItem STORAGE_KEY (JSON_stringify d) st = Normal st' ->
     (saveEffect d st).2 = st'
     ∧ (loadDataFromStorage (saveEffect d st).2).2 = Some (toJS d)
     ∧ initialData (saveEffect d st).2 = toJS d)
  ∧ (∀ e, setItem STORAGE_KEY (JSON_stringify d) st = Throw e ->
       saveEffect d st
       = ([SetItemCall STORAGE_KEY (JSON_stringify d);
           ConsoleError "Failed to save data to localStorage:" e], st)).
Proof.
  unfold saveEffect. split.
  - intros st' Hset. rewrite Hset. simpl. split; [done|].
    destruct (load_returns_parsed st' (JSON_stringify d) (toJS d))
      as [Hload Hinit].
    + unfold setItem in Hset. case_decide; [|done].
      injection Hset as <-. unfold getItem. simpl. apply lookup_insert_eq.
    + apply JSON_parse_stringify.
    + apply toJS_shape.
    + by rewrite Hload.
  - intros e Hset. by rewrite Hset.
Qed.

Lemma load_after_save_witness :
  (setItem STORAGE_KEY (JSON_stringify defaultData) (storage freshApp)
   = Normal {| items := {[ STORAGE_KEY := JSON_stringify defaultData ]};
               quota := 2000 |}
   ∧ (loadDataFromStorage (saveEffect defaultData (storage freshApp)).2).2
     = Some (toJS defaultData)
   ∧ initialData (saveEffect defaultData (storage freshApp)).2
     = toJS defaultData)
  ∧ (setItem STORAGE_KEY (JSON_stringify defaultData) fullStore
     = Throw QuotaExceededError
     ∧ saveEffect defaultData fullStore
       = ([SetItemCall STORAGE_KEY (JSON_stringify defaultData);
           ConsoleError "Failed to save data to localStorage:"
                        QuotaExceededError], fullStore)).
Proof.
  assert (Hset :
    setItem STORAGE_KEY (JSON_stringify defaultData) (storage freshApp)
    = Normal {| items := {[ STORAGE_KEY := JSON_stringify defaultData ]};
                quota := 2000 |}) by (vm_compute; reflexivity).
  assert (Hthrow :
    setItem STORAGE_KEY (JSON_stringify defaultData) fullStore
    = Throw QuotaExceededError) by (vm_compute; reflexivity).
  split.
  - split; [exact Hset|].
    exact (proj2 (proj1 (load_after_save defaultData (storage freshApp))
                        _ Hset)).
  - split; [exact Hthrow|].
    exact (proj2 (load_after_save defaultData fullStore) _ Hthrow).
Defined.

(** The round trip does not hold on every store: a full store refuses the
    write and nothing is there to load. *)
Lemma load_after_refused_save :
  ¬ ∀ (d : SheetData) (st : Storage),
      (loadDataFromStorage (saveEffect d st).2).2 = Some (toJS d).
Proof.
  intros Hall. specialize (Hall defaultData fullStore).
  vm_compute in Hall. discriminate.
Qed.

(** * Further properties of the component *)

(** ** The view and the print button *)

Lemma Forall_imap {A B} (P : B -> Prop) (f : nat -> A -> B) (l : list A) :
  Forall P (imap f l) ↔ ∀ i x, l !! i = Some x -> P (f i x).
Proof.
  rewrite Forall_lookup. split.
  - intros H i x Hx. apply (H i). by rewrite list_lookup_imap, Hx.
  - intros H i y. rewrite list_lookup_imap.
    destruct (l !! i) as [x|] eqn:Hx; simpl; [|done].
    intros [= <-]. by apply H.
Qed.

Lemma Forall_imap_const {A B} (P : B -> Prop) (Q : A -> Prop)
    (f : nat -> A -> B) (l : list A) :
  (∀ i x, P (f i x) ↔ Q x) -> Forall P (imap f l) ↔ Forall Q l.
Proof.
  intros Hf. rewrite Forall_imap, Forall_lookup.
  split; intros H i x Hx; apply (Hf i x), (H i x Hx).
Qed.

Lemma red_iff (b : bool) (other : string) :
  other ≠ "border-red-500" ->
  (if b then "border-red-500" else other) ≠ "border-red-500" ↔ b = false.
Proof. intros Hother. destruct b; split; intros; congruence. Qed.

Lemma no_red_within_limits (d : SheetData) :
  no_red (render d) ↔ spec_within_limits d.
Proof.
  unfold no_red, spec_within_limits, render; simpl.
  rewrite (Forall_imap_const _ (fun v => length v <= 30)).
  2:{ intros i v. simpl. rewrite red_iff by done.
      rewrite bool_decide_eq_false. lia. }
  rewrite (Forall_imap_const _ (fun e => length e <= 30)).
  2:{ intros i v. simpl. rewrite red_iff by done.
      rewrite bool_decide_eq_false. lia. }
  rewrite (Forall_imap_const _ (fun ep => length (text ep) <= 80
                                          ∧ length (from ep) <= 8)).
  2:{ intros i ep. simpl. rewrite red_iff by done.
      rewrite orb_false_iff, !bool_decide_eq_false. lia. }
  rewrite red_iff by done. rewrite bool_decide_eq_false, Forall_and. 
  split; intros (? & ? & ? & ?); repeat split; tauto || lia.
Qed.

Lemma validate_Ok_iff (d : SheetData) :
  validate d = Ok ↔ spec_within_limits d.
Proof.
  split; [|apply validate_within_limits].
  intros Hok. pose proof (validate_sound d) as Hsound. by rewrite Hok in Hsound.
Qed.

(** X1.  The print button prints exactly when the view shows no field with
    the red border; when some field is red it raises one alert instead. *)
Theorem print_iff_no_red_border (d : SheetData) :
  (handlePrint d = [WindowPrint] ↔ no_red (render d))
  ∧ (¬ no_red (render d) -> ∃ k, handlePrint d = [Alert (alertMessage k)]).
Proof.
  rewrite no_red_within_limits, <-validate_Ok_iff, handlePrint_validate.
  destruct (validate d) as [|k]; split; try done.
  intros _. by exists k.
Qed.

(** ** What the loader returns and what it logs *)

Lemma load_try_cases (st : Storage) :
  load_try st =
  match getItem STORAGE_KEY st with
  | None => Normal None
  | Some stored =>
      match stored with
      | [] => Normal None
      | _ :: _ =>
          match JSON_parse stored with
          | Normal parsed =>
              if shape_check parsed then Normal (Some parsed) else Normal None
          | Throw e => Throw e
          end
      end
  end.
Proof.
  unfold load_try. by destruct (getItem STORAGE_KEY st) as [[|c r]|].
Qed.

(** X2.  The loader returns a value exactly when the key holds a text that
    parses to a value with the four properties in their containers, and the
    value it returns is the parsed one, extra properties included. *)
Theorem load_returns_iff (st : Storage) (v : json) :
  (loadDataFromStorage st).2 = Some v
  ↔ ∃ stored, getItem STORAGE_KEY st = Some stored
              ∧ JSON_parse stored = Normal v
              ∧ spec_shape v.
Proof.
  unfold loadDataFromStorage. rewrite load_try_cases. split.
  - destruct (getItem STORAGE_KEY st) as [[|c r]|]; try done.
    destruct (JSON_parse (c :: r)) as [parsed|e] eqn:Hparse; [|done].
    destruct (shape_check parsed) eqn:Hshape; [|done].
    simpl. intros [= <-]. exists (c :: r).
    by rewrite <-shape_check_spec.
  - intros (stored & -> & Hparse & Hshape).
    pose proof (JSON_parse_nonempty stored v Hparse) as Hne.
    destruct stored as [|c r]; [done|]. rewrite Hparse.
    by rewrite (proj2 (shape_check_spec v) Hshape).
Qed.

(** X3.  What the loader logs once the read of the key has returned.  For
    a text that is not empty and does not parse it logs the error thrown
    and returns [null].  For a parsed value of the wrong shape, for a
    missing key and for an empty text it returns [null] and logs nothing. *)
Theorem load_logs_parse_errors_only (st : Storage) :
  (∀ stored e, getItem STORAGE_KEY st = Some stored ->
     JSON_parse stored = Throw e ->
     loadDataFromStorage st
     = (if bool_decide (stored = []) then []
        else [ConsoleError "Failed to load data from localStorage:" e],
        None))
  ∧ (∀ stored parsed, getItem STORAGE_KEY st = Some stored ->
       JSON_parse stored = Normal parsed -> ¬ spec_shape parsed ->
       loadDataFromStorage st = ([], None))
  ∧ (getItem STORAGE_KEY st = None ∨ getItem STORAGE_KEY st = Some [] ->
     loadDataFromStorage st = ([], None)).
Proof.
  unfold loadDataFromStorage. rewrite load_try_cases. split; [|split].
  - intros stored e -> Hthrow. destruct stored as [|c r]; [done|].
    by rewrite Hthrow.
  - intros stored parsed -> Hparse Hshape.
    pose proof (JSON_parse_nonempty stored parsed Hparse) as Hne.
    destruct stored as [|c r]; [done|]. rewrite Hparse.
    destruct (shape_check parsed) eqn:Hc; [|done].
    by apply shape_check_spec in Hc.
  - by intros [-> | ->].
Qed.

(** The text [not json], a text whose value lacks three of the properties,
    and no text at all. *)
Lemma load_logs_parse_errors_only_witness :
  loadDataFromStorage notJsonStore
  = ([ConsoleError "Failed to load data from localStorage:" SyntaxError],
     None)
  ∧ loadDataFromStorage
      {| items := {[ STORAGE_KEY := jsq "{'visions':[]}" ]}; quota := 100 |}
    = ([], None)
  ∧ loadDataFromStorage fullStore = ([], None).
Proof.
  split; [|split].
  - apply (proj1 (load_logs_parse_errors_only notJsonStore)
             (js "not json") SyntaxError).
    + vm_compute; reflexivity.
    + vm_compute; reflexivity.
  - apply (proj1 (proj2 (load_logs_parse_errors_only _))
             (jsq "{'visions':[]}") (JObject [(js "visions", JArray [])])).
    + vm_compute; reflexivity.
    + vm_compute; reflexivity.
    + intros (_ & [s Hs] & _). vm_compute in Hs. discriminate.
  - apply (proj2 (proj2 (load_logs_parse_errors_only fullStore))). left.
    vm_compute; reflexivity.
Defined.

(** ** One key *)

(** X4.  Saving writes under the one key only: what any other key holds and
    the capacity of the store are as before; and what the loader returns
    does not change when another key is written. *)
Theorem save_touches_one_key (d : SheetData) (st : Storage)
    (key value : jsstring) :
  key ≠ STORAGE_KEY ->
  getItem key (saveEffect d st).2 = getItem key st
  ∧ quota (saveEffect d st).2 = quota st
  ∧ ∀ st', setItem key value st = Normal st' ->
           loadDataFromStorage st' = loadDataFromStorage st.
Proof.
  intros Hkey. split; [|split].
  - unfold saveEffect, setItem. case_decide; simpl; [|done].
    unfold getItem; simpl. by rewrite lookup_insert_ne.
  - unfold saveEffect, setItem. by case_decide.
  - intros st' Hset. unfold setItem in Hset. case_decide; [|done].
    injection Hset as <-.
    unfold loadDataFromStorage, load_try, getItem; simpl.
    by rewrite lookup_insert_ne.
Qed.

Lemma save_touches_one_key_witness :
  getItem (js "theme") (saveEffect defaultData notJsonStore).2
  = getItem (js "theme") notJsonStore
  ∧ quota (saveEffect defaultData notJsonStore).2 = quota notJsonStore
  ∧ ∀ st', setItem (js "theme") (js "dark") notJsonStore = Normal st' ->
           loadDataFromStorage st' = loadDataFromStorage notJsonStore.
Proof.
  apply (save_touches_one_key defaultData notJsonStore (js "theme") (js "dark")).
  vm_compute. discriminate.
Defined.

(** ** Input events *)

Lemma step_updater (ev : Event) (u : SheetData -> option SheetData)
    (app : App) :
  updater_of ev = Some u -> step ev app = setData u app.
Proof. destruct ev; simpl; intros [= <-]; done. Qed.

Lemma setData_eq (u : SheetData -> option SheetData) (app : App)
    (next : SheetData) :
  well_formed app ->
  u (data app) = Some next ->
  setData u app
  = Some ((saveEffect next (storage app)).1,
          {| data := next; data_id := next_id app;
             next_id := S (next_id app);
             storage := (saveEffect next (storage app)).2 |}).
Proof.
  unfold well_formed, setData. intros Hwf ->. simpl.
  rewrite decide_False by lia.
  by destruct (saveEffect next (storage app)).
Qed.

Lemma load_after_setItem (d : SheetData) (st st' : Storage) :
  setItem STORAGE_KEY (JSON_stringify d) st = Normal st' ->
  loadDataFromStorage st' = ([], Some (toJS d)).
Proof.
  intros Hset.
  apply (load_returns_parsed st' (JSON_stringify d) (toJS d)).
  - unfold setItem in Hset. case_decide; [|done].
    injection Hset as <-. unfold getItem. simpl. apply lookup_insert_eq.
  - apply JSON_parse_stringify.
  - apply toJS_shape.
Qed.

(** X5.  An input whose updater yields a record always puts that record in
    the state.  When the store takes the write, it is the only call made and
    loading from the store afterwards gives the new record; when the store
    refuses it, the refusal is logged and the store is as before. *)
Theorem input_updates_state_and_store (ev : Event)
    (u : SheetData -> option SheetData) (app : App) (next : SheetData) :
  well_formed app ->
  updater_of ev = Some u ->
  u (data app) = Some next ->
  ∃ calls app',
    step ev app = Some (calls, app')
    ∧ data app' = next
    ∧ (∀ st', setItem STORAGE_KEY (JSON_stringify next) (storage app)
              = Normal st' ->
         calls = [SetItemCall STORAGE_KEY (JSON_stringify next)]
         ∧ storage app' = st'
         ∧ loadDataFromStorage (storage app') = ([], Some (toJS next)))
    ∧ (∀ e, setItem STORAGE_KEY (JSON_stringify next) (storage app)
            = Throw e ->
         calls = [SetItemCall STORAGE_KEY (JSON_stringify next);
                  ConsoleError "Failed to save data to localStorage:" e]
         ∧ storage app' = storage app).
Proof.
  intros Hwf Hu Hnext. eexists _, _.
  split; [by rewrite (step_updater ev u), (setData_eq u app next)|].
  simpl. split; [done|]. unfold saveEffect. split.
  - intros st' Hset. rewrite Hset. simpl. repeat split.
    by apply (load_after_setItem next (storage app)).
  - intros e Hset. by rewrite Hset.
Qed.

Lemma input_updates_state_and_store_witness :
  ∃ calls app',
    step (VisionInput 0 (js "go")) freshApp = Some (calls, app')
    ∧ visions (data app') = [js "go"; []; []]
    ∧ calls = [SetItemCall STORAGE_KEY (JSON_stringify (data app'))]
    ∧ loadDataFromStorage (storage app') = ([], Some (toJS (data app'))).
Proof.
  assert (Hwf : well_formed freshApp) by (unfold well_formed; simpl; lia).
  destruct (input_updates_state_and_store
              (VisionInput 0 (js "go")) (handleVisionChange 0 (js "go"))
              freshApp
              {| visions := [js "go"; []; []]; engineSlogan := [];
                 engines := [[]; []; []]; episodes := emptyEpisodes |}
              Hwf eq_refl eq_refl)
    as (calls & app' & Hstep & Hdata & Hok & _).
  exists calls, app'. split; [exact Hstep|]. rewrite Hdata.
  split; [reflexivity|].
  destruct (Hok {| items := {[ STORAGE_KEY := JSON_stringify
                     {| visions := [js "go"; []; []]; engineSlogan := [];
                        engines := [[]; []; []];
                        episodes := emptyEpisodes |} ]};
                   quota := 2000 |})
    as (Hcalls & _ & Hload).
  - vm_compute. reflexivity.
  - split; [exact Hcalls | exact Hload].
Defined.

(** X6.  An input never raises an alert and never prints; a click on the
    print button never writes to the store and changes neither the record
    nor the store. *)
Theorem inputs_save_print_only_prints (ev : Event) (app app' : App)
    (calls : list Call) :
  step ev app = Some (calls, app') ->
  if is_mutation ev
  then count_calls is_Alert calls = 0
       ∧ count_calls is_WindowPrint calls = 0
  else count_calls is_SetItem calls = 0
       ∧ data app' = data app
       ∧ storage app' = storage app.
Proof.
  intros Hstep.
  assert (Hset : ∀ u, setData u app = Some (calls, app') ->
                      count_calls is_Alert calls = 0
                      ∧ count_calls is_WindowPrint calls = 0).
  { intros u Hs. unfold setData in Hs.
    destruct (u (data app)) as [next|]; simpl in Hs; [|done].
    case_decide; [by injection Hs as <- _|].
    unfold saveEffect in Hs.
    by destruct (setItem _ _ _); injection Hs as <- _. }
  destruct ev; simpl in *; eauto.
  injection Hstep as <- <-. rewrite handlePrint_validate.
  by destruct (validate (data app)).
Qed.

Lemma inputs_save_print_only_prints_witness :
  (∃ calls app', step (SloganInput (js "me")) freshApp = Some (calls, app')
                 ∧ count_calls is_Alert calls = 0
                 ∧ count_calls is_WindowPrint calls = 0)
  ∧ (∃ calls app', step PrintClick freshApp = Some (calls, app')
                   ∧ count_calls is_SetItem calls = 0
                   ∧ data app' = data freshApp
                   ∧ storage app' = storage freshApp).
Proof.
  split.
  - destruct (step (SloganInput (js "me")) freshApp) as [[calls app']|] eqn:H;
      [|vm_compute in H; discriminate].
    exists calls, app'. split; [reflexivity|].
    exact (inputs_save_print_only_prints _ _ _ _ H).
  - exists (handlePrint (data freshApp)), freshApp. split; [reflexivity|].
    exact (inputs_save_print_only_prints PrintClick freshApp freshApp _ eq_refl).
Defined.

(** ** Indices outside the sequences *)

Lemma alter_past_end {A} (f : A -> A) (i : nat) (l : list A) :
  length l <= i -> alter f i l = l.
Proof.
  intros Hi. apply list_eq. intros j. destruct (decide (j = i)) as [->|Hne].
  - by rewrite list_lookup_alter_eq, (lookup_ge_None_2 l i).
  - by rewrite list_lookup_alter_ne.
Qed.

(** X7.  An episode input with an index past the last episode leaves the
    record as it is, for [map] finds no position equal to the index; the
    record is saved all the same. *)
Theorem episode_input_past_end (app : App) (index : nat) (field : EpisodeKey)
    (value : jsstring) :
  well_formed app ->
  length (episodes (data app)) <= index ->
  handleEpisodeChange index field value (data app) = Some (data app)
  ∧ ∃ calls app',
      step (EpisodeInput index field value) app = Some (calls, app')
      ∧ data app' = data app
      ∧ List.filter is_SetItem calls
        = [SetItemCall STORAGE_KEY (JSON_stringify (data app))].
Proof.
  intros Hwf Hi.
  assert (Hsame : handleEpisodeChange index field value (data app)
                  = Some (data app)).
  { rewrite handleEpisodeChange_alter.
    rewrite alter_past_end by done. by rewrite record_eta. }
  split; [done|].
  destruct (setData_saves (handleEpisodeChange index field value) app
                          (data app) Hwf Hsame)
    as (calls & app' & Hset & Hdata & _ & _ & Hcalls).
  by exists calls, app'.
Qed.

Lemma episode_input_past_end_witness :
  handleEpisodeChange 6 key_text (js "late") (data freshApp)
  = Some (data freshApp)
  ∧ ∃ calls app',
      step (EpisodeInput 6 key_text (js "late")) freshApp = Some (calls, app')
      ∧ data app' = data freshApp
      ∧ List.filter is_SetItem calls
        = [SetItemCall STORAGE_KEY (JSON_stringify (data freshApp))].
Proof.
  apply (episode_input_past_end freshApp 6 key_text (js "late")).
  - unfold well_formed; simpl; lia.
  - simpl; lia.
Defined.

Lemma array_assign_at_end {A} (xs : list A) (v : A) :
  is_array_index (length xs) = true ->
  dense (array_assign (Some <$> xs) (length xs) v) = Some (xs ++ [v]).
Proof.
  intros Hidx. unfold array_assign.
  rewrite length_fmap, decide_False, Hidx by lia.
  rewrite Nat.sub_diag. simpl.
  change [Some v] with (Some <$> [v]). by rewrite <-fmap_app, dense_some.
Qed.

Lemma array_assign_past_end {A} (xs : list A) (i : nat) (v : A) :
  length xs < i ->
  is_array_index i = true ->
  array_assign (Some <$> xs) i v !! length xs = Some None
  ∧ length (array_assign (Some <$> xs) i v) = S i
  ∧ dense (array_assign (Some <$> xs) i v) = None.
Proof.
  intros Hi Hidx. unfold array_assign.
  rewrite length_fmap, decide_False, Hidx by lia.
  assert (Hhole : ((Some <$> xs) ++ replicate (i - length xs) None
                   ++ [Some v]) !! length xs = Some (@None A)).
  { rewrite lookup_app_r by (rewrite length_fmap; lia).
    rewrite length_fmap, Nat.sub_diag.
    destruct (i - length xs) as [|n] eqn:Hn; [lia | done]. }
  split; [done|]. split.
  - rewrite !length_app, length_fmap, length_replicate. simpl. lia.
  - unfold dense. apply mapM_None. apply Exists_exists.
    exists None. split; [|done]. by eapply list_elem_of_lookup_2.
Qed.

Lemma array_assign_no_index {A} (xs : list A) (i : nat) (v : A) :
  length xs <= i ->
  is_array_index i = false ->
  dense (array_assign (Some <$> xs) i v) = Some xs.
Proof.
  intros Hi Hidx. unfold array_assign.
  rewrite length_fmap, decide_False, Hidx by lia. apply dense_some.
Qed.

(** X8.  A vision or engine input at the index just past the last element
    appends the value, so the sequence gets one longer; further out, as
    long as the number is an array index (below 2^32 - 1), the array gets
    an empty slot after its last element and is [index + 1] long; with a
    number at or past the end that is no array index the sequence stays as
    it is. *)
Theorem input_at_and_past_end (d : SheetData) (index : nat)
    (value : jsstring) :
  (is_array_index (length (visions d)) = true ->
   ∃ d', handleVisionChange (length (visions d)) value d = Some d'
         ∧ visions d' = visions d ++ [value]
         ∧ engineSlogan d' = engineSlogan d
         ∧ engines d' = engines d ∧ episodes d' = episodes d)
  ∧ (is_array_index (length (engines d)) = true ->
     ∃ d', handleEngineChange (length (engines d)) value d = Some d'
           ∧ engines d' = engines d ++ [value]
           ∧ visions d' = visions d
           ∧ engineSlogan d' = engineSlogan d ∧ episodes d' = episodes d)
  ∧ (length (visions d) < index -> is_array_index index = true ->
     array_assign (Some <$> visions d) index value !! length (visions d)
     = Some None
     ∧ length (array_assign (Some <$> visions d) index value) = S index
     ∧ handleVisionChange index value d = None)
  ∧ (length (engines d) < index -> is_array_index index = true ->
     array_assign (Some <$> engines d) index value !! length (engines d)
     = Some None
     ∧ length (array_assign (Some <$> engines d) index value) = S index
     ∧ handleEngineChange index value d = None)
  ∧ (length (visions d) <= index -> is_array_index index = false ->
     array_assign (Some <$> visions d) index value = Some <$> visions d
     ∧ handleVisionChange index value d = Some d)
  ∧ (length (engines d) <= index -> is_array_index index = false ->
     array_assign (Some <$> engines d) index value = Some <$> engines d
     ∧ handleEngineChange index value d = Some d).
Proof.
  split; [|split; [|split; [|split; [|split]]]].
  - intros Hidx. eexists. unfold handleVisionChange.
    rewrite array_assign_at_end by done. simpl. by repeat split.
  - intros Hidx. eexists. unfold handleEngineChange.
    rewrite array_assign_at_end by done. simpl. by repeat split.
  - intros Hi Hidx.
    destruct (array_assign_past_end (visions d) index value Hi Hidx)
      as (Hhole & Hlen & Hdense).
    split; [done|]. split; [done|].
    unfold handleVisionChange. by rewrite Hdense.
  - intros Hi Hidx.
    destruct (array_assign_past_end (engines d) index value Hi Hidx)
      as (Hhole & Hlen & Hdense).
    split; [done|]. split; [done|].
    unfold handleEngineChange. by rewrite Hdense.
  - intros Hi Hidx. split.
    + unfold array_assign. by rewrite length_fmap, decide_False, Hidx by lia.
    + unfold handleVisionChange.
      rewrite array_assign_no_index by done. simpl. by rewrite record_eta.
  - intros Hi Hidx. split.
    + unfold array_assign. by rewrite length_fmap, decide_False, Hidx by lia.
    + unfold handleEngineChange.
      rewrite array_assign_no_index by done. simpl. by rewrite record_eta.
Qed.

Lemma input_at_and_past_end_witness :
  (∃ d', handleVisionChange 3 (js "x") defaultData = Some d'
         ∧ visions d' = [[]; []; []; js "x"])
  ∧ array_assign (Some <$> visions defaultData) 5 (js "x") !! 3 = Some None
  ∧ length (array_assign (Some <$> visions defaultData) 5 (js "x")) = 6
  ∧ handleVisionChange 5 (js "x") defaultData = None.
Proof.
  destruct (input_at_and_past_end defaultData 5 (js "x"))
    as (Hend & _ & Hpast & _).
  split.
  - destruct (Hend eq_refl) as (d' & Hd' & Hv & _). by exists d'.
  - apply Hpast; [simpl; lia | reflexivity].
Defined.

(** ** Inputs one after the other *)

(** The view raises input events for the positions of its sequences only. *)
Lemma raises_render (d : SheetData) (ev : Event) :
  raises (render d) ev ↔
  match ev with
  | VisionInput i _ => i < length (visions d)
  | SloganInput _ => True
  | EngineInput i _ => i < length (engines d)
  | EpisodeInput i _ _ => i < length (episodes d)
  | PrintClick => True
  end.
Proof.
  unfold raises, render; simpl. split.
  - intros [(b & x & Hb & ->)|[(x & ->)|[(b & x & Hb & ->)|
             [(c & x & Hc & Hev)| ->]]]]; simpl; try done.
    + apply elem_of_lookup_imap in Hb as (i & v & -> & Hv). simpl.
      by eapply lookup_lt_Some.
    + apply elem_of_lookup_imap in Hb as (i & v & -> & Hv). simpl.
      by eapply lookup_lt_Some.
    + apply elem_of_lookup_imap in Hc as (i & v & -> & Hv). simpl in Hev.
      destruct Hev as [-> | ->]; by eapply lookup_lt_Some.
  - destruct ev as [i v|v|i v|i f v|]; intros Hi.
    + left. destruct (lookup_lt_is_Some_2 _ _ Hi) as [x Hx].
      eexists _, v. split; [by eapply elem_of_lookup_imap_2|done].
    + right; left. by exists v.
    + right; right; left. destruct (lookup_lt_is_Some_2 _ _ Hi) as [x Hx].
      eexists _, v. split; [by eapply elem_of_lookup_imap_2|done].
    + do 3 right; left. destruct (lookup_lt_is_Some_2 _ _ Hi) as [x Hx].
      eexists _, v. split; [by eapply elem_of_lookup_imap_2|].
      simpl. destruct f; [by left | by right].
    + by do 4 right.
Qed.

(** What the updater of an event raised by the view yields. *)
Lemma updater_raised (d : SheetData) (ev : Event)
    (u : SheetData -> option SheetData) :
  raises (render d) ev -> updater_of ev = Some u ->
  u d = Some
    match ev with
    | VisionInput i v =>
        {| visions := <[i := v]> (visions d); engineSlogan := engineSlogan d;
           engines := engines d; episodes := episodes d |}
    | SloganInput v =>
        {| visions := visions d; engineSlogan := v;
           engines := engines d; episodes := episodes d |}
    | EngineInput i v =>
        {| visions := visions d; engineSlogan := engineSlogan d;
           engines := <[i := v]> (engines d); episodes := episodes d |}
    | EpisodeInput i f v =>
        {| visions := visions d; engineSlogan := engineSlogan d;
           engines := engines d;
           episodes := alter (set_field f v) i (episodes d) |}
    | PrintClick => d
    end.
Proof.
  rewrite raises_render.
  destruct ev; simpl; intros Hi [= <-].
  - by apply handleVisionChange_in_range.
  - done.
  - by apply handleEngineChange_in_range.
  - apply handleEpisodeChange_alter.
Qed.

Lemma set_field_twice (f : EpisodeKey) (v1 v2 : jsstring) (ep : Episode) :
  set_field f v2 (set_field f v1 ep) = set_field f v2 ep.
Proof. by destruct f. Qed.

Lemma set_field_swap (f1 f2 : EpisodeKey) (v1 v2 : jsstring) (ep : Episode) :
  f1 ≠ f2 ->
  set_field f2 v2 (set_field f1 v1 ep) = set_field f1 v1 (set_field f2 v2 ep).
Proof. by destruct f1, f2. Qed.

(** X9.  Of two inputs into the same field the later one decides: entering
    one value and then another gives the record that entering the second
    alone gives. *)
Theorem later_input_replaces_earlier (d : SheetData) (ev1 ev2 : Event)
    (u1 u2 : SheetData -> option SheetData) :
  raises (render d) ev1 ->
  updater_of ev1 = Some u1 ->
  updater_of ev2 = Some u2 ->
  target ev1 = target ev2 ->
  u1 d ≫= u2 = u2 d.
Proof.
  intros Hr1 Hu1 Hu2 Htarget.
  assert (Hr2 : raises (render d) ev2).
  { apply raises_render. apply raises_render in Hr1.
    destruct ev1, ev2; simpl in *; by simplify_eq. }
  rewrite (updater_raised d ev1 u1 Hr1 Hu1), (updater_raised d ev2 u2 Hr2 Hu2).
  simpl. apply raises_render in Hr1.
  destruct ev1, ev2; simpl in *; simplify_eq.
  - rewrite handleVisionChange_in_range by (simpl; by rewrite length_insert).
    simpl. by rewrite list_insert_insert_eq.
  - done.
  - rewrite handleEngineChange_in_range by (simpl; by rewrite length_insert).
    simpl. by rewrite list_insert_insert_eq.
  - rewrite handleEpisodeChange_alter. simpl.
    rewrite list_alter_alter_eq. do 2 f_equal.
    apply list_alter_ext; [|done]. intros ep _. apply set_field_twice.
Qed.

Lemma later_input_replaces_earlier_witness :
  handleVisionChange 1 (js "first") defaultData
  ≫= handleVisionChange 1 (js "second")
  = handleVisionChange 1 (js "second") defaultData.
Proof.
  apply (later_input_replaces_earlier defaultData
           (VisionInput 1 (js "first")) (VisionInput 1 (js "second")));
    try reflexivity.
  apply raises_render. simpl. lia.
Defined.

(** X10.  Inputs into different fields do not disturb each other: the two
    orders give the same record. *)
Theorem inputs_into_different_fields_commute (d : SheetData)
    (ev1 ev2 : Event) (u1 u2 : SheetData -> option SheetData) :
  raises (render d) ev1 ->
  raises (render d) ev2 ->
  updater_of ev1 = Some u1 ->
  updater_of ev2 = Some u2 ->
  target ev1 ≠ target ev2 ->
  u1 d ≫= u2 = u2 d ≫= u1.
Proof.
  intros Hr1 Hr2 Hu1 Hu2 Htarget.
  rewrite (updater_raised d ev1 u1 Hr1 Hu1), (updater_raised d ev2 u2 Hr2 Hu2).
  simpl. apply raises_render in Hr1. apply raises_render in Hr2.
  destruct ev1 as [i1 v1|v1|i1 v1|i1 f1 v1|],
           ev2 as [i2 v2|v2|i2 v2|i2 f2 v2|];
    simpl in *; simplify_eq;
    rewrite ?handleVisionChange_in_range, ?handleEngineChange_in_range,
      ?handleEpisodeChange_alter by (simpl; by rewrite ?length_insert);
    simpl; try done.
  - rewrite list_insert_insert_ne by congruence. done.
  - rewrite list_insert_insert_ne by congruence. done.
  - do 2 f_equal. destruct (decide (i1 = i2)) as [->|Hne].
    + rewrite !list_alter_alter_eq. apply list_alter_ext; [|done].
      intros ep _. simpl. apply set_field_swap. congruence.
    + by rewrite list_alter_alter_ne.
Qed.

Lemma inputs_into_different_fields_commute_witness :
  handleVisionChange 0 (js "a") defaultData
  ≫= handleEpisodeChange 2 key_from (js "b")
  = handleEpisodeChange 2 key_from (js "b") defaultData
    ≫= handleVisionChange 0 (js "a").
Proof.
  apply (inputs_into_different_fields_commute defaultData
           (VisionInput 0 (js "a")) (EpisodeInput 2 key_from (js "b")));
    try reflexivity.
  - apply raises_render. simpl. lia.
  - apply raises_render. simpl. lia.
  - simpl. discriminate.
Defined.

(** ** Validation after an input *)

Lemma Exists_insert_here {A} (P : A -> Prop) (l : list A) (i : nat) (x : A) :
  i < length l -> P x -> Exists P (<[i := x]> l).
Proof.
  intros Hi Hx. apply Exists_exists. exists x. split; [|done].
  apply list_elem_of_lookup. exists i. by apply list_lookup_insert_eq.
Qed.

Lemma Exists_alter_here {A} (P : A -> Prop) (f : A -> A) (l : list A)
    (i : nat) :
  i < length l -> (∀ x, P (f x)) -> Exists P (alter f i l).
Proof.
  intros Hi Hf. destruct (lookup_lt_is_Some_2 _ _ Hi) as [x Hx].
  apply Exists_exists. exists (f x). split; [|done].
  apply list_elem_of_lookup. exists i. by rewrite list_lookup_alter_eq, Hx.
Qed.

(** X11.  On a record that validates, an input decides the outcome by the
    length of the value entered alone: within the limit of its field the
    record validates again, beyond it the violation of that field's group
    is reported. *)
Theorem validate_after_input (d : SheetData) (ev : Event)
    (u : SheetData -> option SheetData) (f : Field) :
  spec_within_limits d ->
  raises (render d) ev ->
  updater_of ev = Some u ->
  target ev = Some f ->
  ∃ d', u d = Some d'
        ∧ validate d' = if bool_decide (length (entered ev) <= limit_of f)
                        then Ok else Violated (group_of f).
Proof.
  intros (Hv & Hs & He & Ht & Hf) Hr Hu Htarget.
  eexists. split; [by apply (updater_raised d ev u)|].
  apply raises_render in Hr.
  destruct ev as [i v|v|i v|i k v|]; simpl in *; simplify_eq; simpl.
  - case_bool_decide as Hlen.
    + apply validate_within_limits. repeat split; simpl; try done.
      by apply Forall_insert.
    + apply validate_first_violation; simpl.
      * apply Exists_insert_here; [done | lia].
      * intros [] Hlt; simpl in Hlt; lia.
  - case_bool_decide as Hlen.
    + apply validate_within_limits. by repeat split.
    + apply validate_first_violation; simpl; [lia|].
      intros [] Hlt; simpl in Hlt; try lia; simpl.
      by apply (no_errors_Forall id).
  - case_bool_decide as Hlen.
    + apply validate_within_limits. repeat split; simpl; try done.
      by apply Forall_insert.
    + apply validate_first_violation; simpl.
      * apply Exists_insert_here; [done | lia].
      * intros [] Hlt; simpl in Hlt; try lia; simpl.
        -- by apply (no_errors_Forall id).
        -- lia.
  - destruct k; simpl; case_bool_decide as Hlen.
    + apply validate_within_limits. repeat split; simpl; try done.
      * apply Forall_alter; [done|]. by intros ep _ Hep.
      * apply Forall_alter; [done|]. by intros ep _ _.
    + apply validate_first_violation; simpl.
      * apply Exists_alter_here; [done|]. intros ep. simpl. lia.
      * intros [] Hlt; simpl in Hlt; try lia; simpl.
        -- by apply (no_errors_Forall id).
        -- lia.
        -- by apply (no_errors_Forall id).
        -- apply (no_errors_Forall text).
           apply Forall_alter; [done|]. by intros ep _ Hep.
    + apply validate_within_limits. repeat split; simpl; try done.
      * apply Forall_alter; [done|]. by intros ep _ _.
      * apply Forall_alter; [done|]. by intros ep _ Hep.
    + apply validate_first_violation; simpl.
      * apply Exists_alter_here; [done|]. intros ep. simpl. lia.
      * intros [] Hlt; simpl in Hlt; try lia; simpl.
        -- by apply (no_errors_Forall id).
        -- lia.
        -- by apply (no_errors_Forall id).
Qed.

Lemma validate_after_input_witness :
  (∃ d', handleEngineChange 1 (replicate 31 120%N) defaultData = Some d'
         ∧ validate d' = Violated EngineTooLong)
  ∧ (∃ d', handleEpisodeChange 4 key_text (replicate 80 120%N) defaultData
           = Some d'
           ∧ validate d' = Ok).
Proof.
  assert (Hok : spec_within_limits defaultData)
    by (repeat split; repeat constructor; simpl; lia).
  split.
  - apply (validate_after_input defaultData
             (EngineInput 1 (replicate 31 120%N)) _ (FEngine 1) Hok);
      [|reflexivity|reflexivity].
    apply raises_render. simpl. lia.
  - apply (validate_after_input defaultData
             (EpisodeInput 4 key_text (replicate 80 120%N)) _
             (FEpisode 4 key_text) Hok);
      [|reflexivity|reflexivity].
    apply raises_render. simpl. lia.
Defined.

(** ** Any sequence of events of the view *)

Lemma step_raised (ev : Event) (app : App) :
  well_formed app ->
  raises (render (data app)) ev ->
  ∃ calls app',
    step ev app = Some (calls, app')
    ∧ well_formed app'
    ∧ length (visions (data app')) = length (visions (data app))
    ∧ length (engines (data app')) = length (engines (data app))
    ∧ length (episodes (data app')) = length (episodes (data app)).
Proof.
  intros Hwf Hr. destruct (updater_of ev) as [u|] eqn:Hu.
  - pose proof (updater_raised (data app) ev u Hr Hu) as Hnext.
    rewrite (step_updater ev u app Hu).
    rewrite (setData_eq u app _ Hwf Hnext).
    eexists _, _. split; [done|]. unfold well_formed in *. simpl.
    split; [lia|].
    destruct ev; simpl; rewrite ?length_insert, ?length_alter; done.
  - destruct ev; try discriminate. simpl. by eexists _, _.
Qed.

(** X12.  Whatever events the views raise, one after the other and with any
    values, every one is handled: no array gets an empty slot, and the
    record keeps the number of visions, engines and episodes it had. *)
Theorem raised_events_keep_lengths (evs : list Event) (app : App) :
  well_formed app ->
  raised_in_turn evs app ->
  ∃ calls app',
    run evs app = Some (calls, app')
    ∧ well_formed app'
    ∧ length (visions (data app')) = length (visions (data app))
    ∧ length (engines (data app')) = length (engines (data app))
    ∧ length (episodes (data app')) = length (episodes (data app)).
Proof.
  revert app. induction evs as [|ev evs IH]; intros app Hwf Hraised.
  - by exists [], app.
  - destruct Hraised as [Hr Hrest].
    destruct (step_raised ev app Hwf Hr)
      as (calls & app1 & Hstep & Hwf1 & Hv & He & Hp).
    destruct (IH app1 Hwf1 (Hrest calls app1 Hstep))
      as (calls' & app2 & Hrun & Hwf2 & Hv2 & He2 & Hp2).
    exists (calls ++ calls'), app2. simpl. rewrite Hstep, Hrun.
    repeat split; [done | congruence..].
Qed.

Lemma raised_events_keep_lengths_witness :
  ∃ calls app',
    run [EngineInput 2 (js "curiosity"); PrintClick] freshApp
    = Some (calls, app')
    ∧ well_formed app'
    ∧ length (visions (data app')) = length (visions (data freshApp))
    ∧ length (engines (data app')) = length (engines (data freshApp))
    ∧ length (episodes (data app')) = length (episodes (data freshApp)).
Proof.
  apply (raised_events_keep_lengths
           [EngineInput 2 (js "curiosity"); PrintClick] freshApp).
  - unfold well_formed; simpl; lia.
  - split; [apply raises_render; simpl; lia|].
    intros calls app' _. split; [by apply raises_render|].
    intros calls' app'' _. exact I.
Defined.

(** ** Mounting *)

Lemma fromJS_Episode_toJS (ep : Episode) :
  fromJS_Episode (toJS_Episode ep) = Some ep.
Proof.
  unfold fromJS_Episode, toJS_Episode.
  rewrite decide_True by done. by destruct ep.
Qed.

Lemma fromJS_toJS (d : SheetData) : fromJS (toJS d) = Some d.
Proof.
  unfold fromJS, toJS. rewrite decide_True by done.
  rewrite !(mapM_fmap_Some fromJS_string JString) by done.
  rewrite (mapM_fmap_Some fromJS_Episode toJS_Episode)
    by apply fromJS_Episode_toJS.
  simpl. by destruct d.
Qed.

Lemma setItem_again (key value : jsstring) (st st' : Storage) :
  setItem key value st = Normal st' -> setItem key value st' = Normal st'.
Proof.
  unfold setItem. intros Hset. case_decide as Hfit; [|done].
  injection Hset as <-. simpl. rewrite insert_insert_eq.
  by rewrite decide_True.
Qed.

(** X13.  Mounting on a store from which nothing can be loaded starts from
    the default record and writes it under the key; once the store has
    taken that write, loading gives the default record. *)
Theorem mount_without_stored_record (st : Storage) :
  (loadDataFromStorage st).2 = None ->
  ∃ calls app,
    mount st = Some (calls, app)
    ∧ data app = defaultData
    ∧ well_formed app
    ∧ List.filter is_SetItem calls
      = [SetItemCall STORAGE_KEY (JSON_stringify defaultData)]
    ∧ ∀ st', setItem STORAGE_KEY (JSON_stringify defaultData) st = Normal st' ->
             storage app = st'
             ∧ loadDataFromStorage (storage app)
               = ([], Some (toJS defaultData)).
Proof.
  intros Hnone. unfold mount.
  rewrite (load_absent_initial st Hnone), fromJS_toJS. simpl.
  pose proof (saveEffect_one_call defaultData st) as Hcalls.
  destruct (saveEffect defaultData st) as [calls st1] eqn:Hsave.
  eexists _, _. split; [done|]. simpl.
  split; [done|]. split; [unfold well_formed; simpl; lia|]. split.
  - unfold loadDataFromStorage in *.
    destruct (load_try st) as [[v|]|e]; simpl in *; try done.
  - intros st' Hset. unfold saveEffect in Hsave. rewrite Hset in Hsave.
    injection Hsave as _ <-. split; [done|].
    by apply (load_after_setItem defaultData st).
Qed.

Lemma mount_without_stored_record_witness :
  (loadDataFromStorage notJsonStore).2 = None
  ∧ ∃ calls app,
      mount notJsonStore = Some (calls, app)
      ∧ data app = defaultData
      ∧ List.filter is_SetItem calls
        = [SetItemCall STORAGE_KEY (JSON_stringify defaultData)].
Proof.
  assert (Hnone : (loadDataFromStorage notJsonStore).2 = None)
    by (vm_compute; reflexivity).
  split; [exact Hnone|].
  destruct (mount_without_stored_record notJsonStore Hnone)
    as (calls & app & Hmount & Hdata & _ & Hcalls & _).
  exists calls, app. split; [exact Hmount|].
  split; [exact Hdata | exact Hcalls].
Defined.

(** X14.  Mounting on a store that took the save of a record starts from
    that record, logs nothing, writes the same text again and leaves the
    store as it is: what was entered is there after a reload. *)
Theorem mount_after_save (d : SheetData) (st st' : Storage) :
  setItem STORAGE_KEY (JSON_stringify d) st = Normal st' ->
  mount st'
  = Some ([SetItemCall STORAGE_KEY (JSON_stringify d)],
          {| data := d; data_id := 0; next_id := 1; storage := st' |}).
Proof.
  intros Hset.
  assert (Hinit : initialData st' = toJS d).
  { unfold initialData. by rewrite (load_after_setItem d st st' Hset). }
  unfold mount. rewrite Hinit, fromJS_toJS.
  rewrite (load_after_setItem d st st' Hset). simpl. unfold saveEffect.
  by rewrite (setItem_again _ _ st st' Hset).
Qed.

Lemma mount_after_save_witness :
  ∃ st',
    setItem STORAGE_KEY (JSON_stringify twoTooLong) (storage freshApp)
    = Normal st'
    ∧ mount st'
      = Some ([SetItemCall STORAGE_KEY (JSON_stringify twoTooLong)],
              {| data := twoTooLong; data_id := 0; next_id := 1;
                 storage := st' |}).
Proof.
  exists {| items := {[ STORAGE_KEY := JSON_stringify twoTooLong ]};
            quota := 2000 |}.
  assert (Hset :
    setItem STORAGE_KEY (JSON_stringify twoTooLong) (storage freshApp)
    = Normal {| items := {[ STORAGE_KEY := JSON_stringify twoTooLong ]};
                quota := 2000 |}) by (vm_compute; reflexivity).
  split; [exact Hset|].
  exact (mount_after_save twoTooLong (storage freshApp) _ Hset).
Defined.

(** ** The stored text and the record *)

(** X15.  The text written for a record determines the record: different
    records are never written as the same text. *)
Theorem different_records_different_text (d d' : SheetData) :
  d ≠ d' -> JSON_stringify d ≠ JSON_stringify d'.
Proof.
  intros Hne Heq. apply Hne.
  pose proof (JSON_parse_stringify d) as Hd.
  rewrite Heq, JSON_parse_stringify in Hd.
  apply (f_equal (fun c => match c with
                           | Normal v => fromJS v
                           | Throw _ => None
                           end)) in Hd.
  cbv beta iota in Hd. rewrite !fromJS_toJS in Hd. congruence.
Qed.

Lemma different_records_different_text_witness :
  defaultData ≠ twoTooLong
  ∧ JSON_stringify defaultData ≠ JSON_stringify twoTooLong.
Proof.
  assert (Hne : defaultData ≠ twoTooLong) by discriminate.
  split; [exact Hne|].
  exact (different_records_different_text defaultData twoTooLong Hne).
Defined.

(** ** Validation sees lengths only *)

Lemma Forall_length_fmap {A B} (g : A -> B) (P : B -> Prop) (l l' : list A) :
  g <$> l = g <$> l' ->
  Forall (fun x => P (g x)) l ↔ Forall (fun x => P (g x)) l'.
Proof.
  intros Heq.
  change (Forall (P ∘ g) l ↔ Forall (P ∘ g) l').
  by rewrite <-!Forall_fmap, Heq.
Qed.

Lemma Exists_length_fmap {A B} (g : A -> B) (P : B -> Prop) (l l' : list A) :
  g <$> l = g <$> l' ->
  Exists (fun x => P (g x)) l ↔ Exists (fun x => P (g x)) l'.
Proof.
  intros Heq.
  change (Exists (P ∘ g) l ↔ Exists (P ∘ g) l').
  by rewrite <-!Exists_fmap, Heq.
Qed.

Lemma same_lengths_within (d d' : SheetData) :
  same_lengths d d' -> spec_within_limits d -> spec_within_limits d'.
Proof.
  intros (Hv & Hs & He & Hp) (H1 & H2 & H3 & H4 & H5). repeat split.
  - by apply (Forall_length_fmap length (fun n => n <= 30) _ _ Hv).
  - lia.
  - by apply (Forall_length_fmap length (fun n => n <= 30) _ _ He).
  - by apply (Forall_length_fmap _ (fun p => p.2 <= 80) _ _ Hp).
  - by apply (Forall_length_fmap _ (fun p => p.1 <= 8) _ _ Hp).
Qed.

Lemma same_lengths_violates (d d' : SheetData) (k : Violation) :
  same_lengths d d' -> spec_violates k d ↔ spec_violates k d'.
Proof.
  intros (Hv & Hs & He & Hp). destruct k; simpl.
  - apply (Exists_length_fmap length (fun n => 30 < n) _ _ Hv).
  - lia.
  - apply (Exists_length_fmap length (fun n => 30 < n) _ _ He).
  - apply (Exists_length_fmap _ (fun p => 80 < p.2) _ _ Hp).
  - apply (Exists_length_fmap _ (fun p => 8 < p.1) _ _ Hp).
Qed.

(** X16.  Validation looks at the lengths of the fields and at nothing else:
    two records whose fields have the same lengths get the same outcome
    from the print button, whatever characters they hold. *)
Theorem validation_sees_lengths_only (d d' : SheetData) :
  same_lengths d d' ->
  validate d = validate d' ∧ handlePrint d = handlePrint d'.
Proof.
  intros Hsame.
  assert (Hvalidate : validate d = validate d').
  { pose proof (validate_sound d) as Hsound.
    destruct (validate d) as [|k].
    - symmetry. apply validate_within_limits.
      by apply (same_lengths_within d d').
    - destruct Hsound as [Hk Hfirst]. symmetry.
      apply validate_first_violation.
      + by apply (same_lengths_violates d d' k).
      + intros k' Hlt Hk'. apply (Hfirst k' Hlt).
        by apply (same_lengths_violates d d' k'). }
  split; [done|]. by rewrite !handlePrint_validate, Hvalidate.
Qed.

Lemma validation_sees_lengths_only_witness :
  same_lengths twoTooLong
    {| visions := [[]; replicate 31 32%N; []];
       engineSlogan := replicate 31 32%N;
       engines := [[]; []; []];
       episodes := emptyEpisodes |}
  ∧ handlePrint {| visions := [[]; replicate 31 32%N; []];
                   engineSlogan := replicate 31 32%N;
                   engines := [[]; []; []];
                   episodes := emptyEpisodes |}
    = handlePrint twoTooLong.
Proof.
  assert (Hsame :
    same_lengths twoTooLong
      {| visions := [[]; replicate 31 32%N; []];
         engineSlogan := replicate 31 32%N;
         engines := [[]; []; []];
         episodes := emptyEpisodes |}) by (repeat split; reflexivity).
  split; [exact Hsame|].
  symmetry. exact (proj2 (validation_sees_lengths_only _ _ Hsame)).
Defined.
